(** * One side of a streaming limit order book (package websocket)

    A shallow embedding of [OrderBookSide] and of the operations that
    maintain it: [applyUpdate], [applyUpdates] (the batch operation, called
    applyBatch in the design notes), [Get], [Range], [Best] and [checksum].
    The diagnostic rendering [String] is embedded as [OrderBookSide_String].

    The Go code is stateful: every method works on the receiver [o], takes
    the mutex [o.mx], may return early and may panic on a slice expression.
    The embedding keeps that shape.  A method is a computation in the monad
    [Go], which threads the receiver and has three outcomes: the call
    returns, the call panics, or the call blocks for ever on the mutex.

    The decimal arithmetic ([github.com/ericlagergren/decimal]), [fmt],
    [strconv] and [encoding/json] are not part of the package.  They are
    taken as an interface, [Externals], together with the few laws of
    decimal comparison that the sorting code relies on; nothing is
    assumed of how a number prints.  A reference implementation of the
    interface on decimal numerals is given further down and is used to
    run the code on concrete inputs.

    Go walks a map in an order of its choosing, which changes from one
    walk to the next.  [applyUpdates] follows one walk of the table;
    [applyUpdates_with] takes what the walk and the sort return as an
    argument, and the properties that depend on the walk are stated for
    every such argument. *)

From Stdlib Require Import ZArith QArith Qround Qabs Lia Ascii.
From Stdlib Require Import Floats.SpecFloat.
From stdpp Require Import gmap strings pretty list sorting.

Local Open Scope Z_scope.

(** ** The Go values the package handles *)

(** Go's [error]: only its message matters here. *)
Definition error := string.

(** A Go call with a result and an [error]: [(v, nil)] or [(_, err)]. *)
Inductive result (A : Type) : Type :=
  | Ok (a : A)
  | Err (err : error).
Arguments Ok {A} a.
Arguments Err {A} err.

(** [json.Number] is a string type. *)
Definition Number := string.

(** [float64], as the IEEE 754 values of the standard library. *)
Definition float64 := spec_float.

(** The comparison [f == 0] on [float64]: true on both zeros, false on NaN. *)
Definition float64_eq_zero (f : float64) : bool := SFeqb f (S754_zero false).

(** [OrderBookItem]: its declaration is in another file of the package; the
    methods called on its fields ([Float64], [String]) are those of
    [json.Number]. *)
Record OrderBookItem : Type := {
  item_Price : Number;
  item_Volume : Number
}.

(** ** What the package imports *)

Class Externals : Type := {
  (** [decimal.Big] *)
  Big : Type;
  Big_eq_dec :: EqDecision Big;
  (** [z.UnmarshalText(data)] on a receiver [z] whose context precision is
      the first argument: [decimal.WithPrecision(p)] has precision [p], the
      zero value [&decimal.Big{}] has precision [0]. *)
  UnmarshalText : Z → string → result Big;
  (** [x.Cmp(y)]: -1, 0 or +1 *)
  Cmp : Big → Big → Z;
  (** [decimal.New(value, scale)] *)
  New : Z → Z → Big;
  (** [fmt.Sprintf(format, big)] with one operand *)
  Sprintf : string → Big → string;
  (** [strconv.Itoa] *)
  Itoa : Z → string;
  (** [json.Number.Float64], that is [strconv.ParseFloat(s, 64)] *)
  Float64 : Number → result float64;

  (** What the package relies on.  [Cmp] is the three-way comparison of a
      total preorder: the library documents it so on numbers, and leaves
      it undefined on NaN. *)
  Cmp_range : ∀ x y, Cmp x y = -1 ∨ Cmp x y = 0 ∨ Cmp x y = 1;
  Cmp_opp : ∀ x y, Cmp y x = - Cmp x y;
  Cmp_le_trans : ∀ x y z, Cmp x y ≤ 0 → Cmp y z ≤ 0 → Cmp x z ≤ 0
}.

(** Nothing is assumed of how a number prints.  Numbers that compare
    equal need not print alike: [0] and [-0] do not, nor do [100] and
    [1e2], so one price can sit under two keys of the table. *)

(** ** Strings *)

Fixpoint string_mem (c : ascii) (s : string) : bool :=
  match s with
  | EmptyString => false
  | String d s' => if decide (c = d) then true else string_mem c s'
  end.

(** [strings.TrimLeft(s, cutset)] on single-byte characters. *)
Fixpoint TrimLeft (s cutset : string) : string :=
  match s with
  | EmptyString => EmptyString
  | String c s' => if string_mem c cutset then TrimLeft s' cutset else s
  end.

(** [strings.Replace(s, old, new, n)] for a non-empty [old], which is how
    the package calls it: the first [n] non-overlapping occurrences are
    replaced, all of them when [n < 0].  [skip] counts the bytes of a
    matched occurrence still to be dropped. *)
Fixpoint Replace_go (old new s : string) (skip n : nat) : string :=
  match s with
  | EmptyString => EmptyString
  | String c s' =>
      match skip with
      | S skip' => Replace_go old new s' skip' n
      | O =>
          match n with
          | S n' =>
              if String.prefix old s
              then new +:+ Replace_go old new s' (Nat.pred (String.length old)) n'
              else String c (Replace_go old new s' O n)
          | O => s
          end
      end
  end.

Definition Replace (s old new : string) (n : Z) : string :=
  match old with
  | EmptyString => s
  | _ =>
      Replace_go old new s O
        (if n <? 0 then String.length s else Z.to_nat n)
  end.

(** ** Slices *)

(** [s[low:]]: a run-time panic unless [0 <= low <= len(s)]. *)
Definition slice_from {A} (s : list A) (low : Z) : option (list A) :=
  if (0 <=? low) && (low <=? Z.of_nat (length s))
  then Some (drop (Z.to_nat low) s)
  else None.

(** [s[:high]]: a run-time panic unless [0 <= high <= cap(s)].  The slices
    sliced below come from [append] and are only sliced where [high] is
    already known to be at most [len(s)], so [len(s)] stands for [cap(s)]. *)
Definition slice_to {A} (s : list A) (high : Z) : option (list A) :=
  if (0 <=? high) && (high <=? Z.of_nat (length s))
  then Some (take (Z.to_nat high) s)
  else None.

(** ** Package sort *)

(** [sort.Sort(data)], given [data.Less] on elements, as an insertion
    sort, which is what [sort.Sort] comes down to on a slice of a few
    elements.  On longer slices [sort.Sort] is not stable: what it may
    return there is spelled out further down ([arranges]). *)
Section sort.
Context {A : Type} (less : A → A → bool).

Fixpoint sort_insert (x : A) (l : list A) : list A :=
  match l with
  | [] => [x]
  | y :: l' => if less y x then y :: sort_insert x l' else x :: y :: l'
  end.

Fixpoint sort_Sort (data : list A) : list A :=
  match data with
  | [] => []
  | x :: data' => sort_insert x (sort_Sort data')
  end.
End sort.

(** [sort.Reverse(data)]: [Less(i, j)] becomes [data.Less(j, i)]. *)
Definition sort_Reverse {A} (less : A → A → bool) : A → A → bool :=
  λ x y, less y x.

Section orderbook.
Context `{Externals}.

(** ** The data *)

Record orderBookLevel : Type := {
  Price : Big;
  Volume : Big
}.

#[global] Instance orderBookLevel_eq_dec : EqDecision orderBookLevel.
Proof. solve_decision. Defined.

(** [byPrice.Less] *)
Definition byPrice_Less (x y : orderBookLevel) : bool :=
  Cmp (Price x) (Price y) =? -1.

(** [for _, value := range m]: the values in the order in which the map
    is walked.  Go leaves that order open and changes it from one walk
    to the next; [map_to_list] is one such order.  What a call can return
    under any walk is spelled out further down ([arranges],
    [applyUpdates_with]). *)
Definition map_values (m : gmap string orderBookLevel) : list orderBookLevel :=
  (map_to_list m).*2.

Definition newOrderBookLevels (m : gmap string orderBookLevel) (asc : bool)
  : list orderBookLevel :=
  let result := map_values m in
  if asc then sort_Sort byPrice_Less result
  else sort_Sort (sort_Reverse byPrice_Less) result.

(** [mx]: whether the write lock is held.  Readers release their read
    lock before they return ([defer o.mx.RUnlock()]), so no read lock
    outlives a call. *)
Record OrderBookSide : Type := {
  m : gmap string orderBookLevel;
  sorted : list orderBookLevel;
  depth : Z;
  pricePrecision : Z;
  volumePrecision : Z;
  isAsk : bool;
  mx : bool
}.

Definition newOrderBookSide (depth pricePrecision volumePrecision : Z) (isAsk : bool)
  : OrderBookSide :=
  {| m := ∅;
     sorted := [];
     depth := depth;
     pricePrecision := pricePrecision;
     volumePrecision := volumePrecision;
     isAsk := isAsk;
     mx := false |}.

Definition stringFixed (big : Big) (precision : Z) : string :=
  let fmtStr := "%." +:+ Itoa precision +:+ "f" in
  Sprintf fmtStr big.

(** ** Method calls on the receiver *)

Inductive outcome (A : Type) : Type :=
  | Returns (a : A) (o : OrderBookSide)
  | Panics (o : OrderBookSide)
  | Blocks (o : OrderBookSide).
Arguments Returns {A} a o.
Arguments Panics {A} o.
Arguments Blocks {A} o.

Definition Go (A : Type) : Type := OrderBookSide → outcome A.

#[global] Instance Go_ret : MRet Go := λ A a o, Returns a o.
#[global] Instance Go_bind : MBind Go := λ A B f c o,
  match c o with
  | Returns a o' => f a o'
  | Panics o' => Panics o'
  | Blocks o' => Blocks o'
  end.

Definition self : Go OrderBookSide := λ o, Returns o o.
Definition panic {A} : Go A := λ o, Panics o.

(** Assignments to the fields of the receiver. *)
Definition with_m (m' : gmap string orderBookLevel) (o : OrderBookSide)
  : OrderBookSide :=
  {| m := m'; sorted := sorted o; depth := depth o;
     pricePrecision := pricePrecision o;
     volumePrecision := volumePrecision o;
     isAsk := isAsk o; mx := mx o |}.

Definition with_sorted (s : list orderBookLevel) (o : OrderBookSide)
  : OrderBookSide :=
  {| m := m o; sorted := s; depth := depth o;
     pricePrecision := pricePrecision o;
     volumePrecision := volumePrecision o;
     isAsk := isAsk o; mx := mx o |}.

Definition with_mx (b : bool) (o : OrderBookSide) : OrderBookSide :=
  {| m := m o; sorted := sorted o; depth := depth o;
     pricePrecision := pricePrecision o;
     volumePrecision := volumePrecision o;
     isAsk := isAsk o; mx := b |}.

Definition set_m (f : gmap string orderBookLevel → gmap string orderBookLevel)
  : Go unit := λ o, Returns tt (with_m (f (m o)) o).

Definition set_sorted (s : list orderBookLevel) : Go unit :=
  λ o, Returns tt (with_sorted s o).

(** [o.mx.Lock()]: waits while the write lock is held.  Within one thread
    of control nobody will release it, so the call never returns. *)
Definition Lock : Go unit := λ o,
  if mx o then Blocks o else Returns tt (with_mx true o).

(** [o.mx.Unlock()]: a fatal error when the lock is not held. *)
Definition Unlock : Go unit := λ o,
  if mx o then Returns tt (with_mx false o) else Panics o.

(** [o.mx.RLock()] with [defer o.mx.RUnlock()] around [body]. *)
Definition RLocked {A} (body : Go A) : Go A := λ o,
  if mx o then Blocks o else body o.

(** A slice expression, panicking when out of range. *)
Definition sliced {A} (s : option (list A)) : Go (list A) :=
  match s with
  | Some s' => mret s'
  | None => panic
  end.

(** ** The methods *)

Definition applyUpdate (upd : OrderBookItem) : Go (option error) :=
  match Float64 (item_Volume upd) with
  | Err err => mret (Some err)
  | Ok flValue =>
      o ← self;
      match UnmarshalText (pricePrecision o) (item_Price upd) with
      | Err err => mret (Some err)
      | Ok price =>
          let key := stringFixed price (pricePrecision o) in
          Lock;;
          if float64_eq_zero flValue then
            set_m (delete key);;
            Unlock;;
            mret None
          else
            (* v := &decimal.Big{}; v.UnmarshalText([]byte(upd.Price.String())),
               and a return with the lock held when that fails *)
            match UnmarshalText 0 (item_Price upd) with
            | Err err => mret (Some err)
            | Ok v =>
                set_m (<[key := {| Price := price; Volume := v |}]>);;
                Unlock;;
                mret None
            end
      end
  end.

(** The loop [for i := range updates] of [applyUpdates]. *)
Fixpoint applyUpdates_loop (updates : list OrderBookItem) : Go (option error) :=
  match updates with
  | [] => mret None
  | upd :: updates' =>
      r ← applyUpdate upd;
      match r with
      | Some err => mret (Some err)
      | None => applyUpdates_loop updates'
      end
  end.

(** The loop [for _, level := range levels[o.depth:]] of [applyUpdates]. *)
Fixpoint evict (levels : list orderBookLevel) : Go unit :=
  match levels with
  | [] => mret tt
  | level :: levels' =>
      o ← self;
      set_m (delete (stringFixed (Price level) (pricePrecision o)));;
      evict levels'
  end.

Definition applyUpdates (updates : list OrderBookItem) : Go (option error) :=
  r ← applyUpdates_loop updates;
  match r with
  | Some err => mret (Some err)
  | None =>
      Lock;;
      o ← self;
      let levels := newOrderBookLevels (m o) (isAsk o) in
      beyond ← sliced (slice_from levels (depth o));
      evict beyond;;
      kept ← sliced (slice_to levels (depth o));
      set_sorted kept;;
      Unlock;;
      mret None
  end.

Definition Get (price : Big) : Go (Big * bool) :=
  RLocked (
    o ← self;
    let key := stringFixed price (pricePrecision o) in
    match m o !! key with
    | None => mret (New 0 0, false)
    | Some level => mret (Volume level, true)
    end).

Fixpoint Range_loop (handler : Big → Big → option error)
    (levels : list orderBookLevel) : option error :=
  match levels with
  | [] => None
  | level :: levels' =>
      match handler (Price level) (Volume level) with
      | Some err => Some err
      | None => Range_loop handler levels'
      end
  end.

Definition Range (handler : Big → Big → option error) : Go (option error) :=
  RLocked (o ← self; mret (Range_loop handler (sorted o))).

Definition Best : Go (Big * Big) :=
  RLocked (
    o ← self;
    match sorted o with
    | [] => mret (New 0 0, New 0 0)
    | level :: _ => mret (Price level, Volume level)
    end).

(** What one level adds to the buffer of [checksum]. *)
Definition checksum_level (pricePrecision volumePrecision : Z)
    (level : orderBookLevel) : string :=
  let price := stringFixed (Price level) pricePrecision in
  let price := Replace price "." "" 1 in
  let price := TrimLeft price "0" in
  let volume := stringFixed (Volume level) volumePrecision in
  let volume := Replace volume "." "" 1 in
  let volume := TrimLeft volume "0" in
  price +:+ volume.

Fixpoint checksum_loop (pp vp : Z) (levels : list orderBookLevel) (str : string)
  : string :=
  match levels with
  | [] => str
  | level :: levels' =>
      checksum_loop pp vp levels' (str +:+ checksum_level pp vp level)
  end.

Definition checksum : Go (list Byte.byte) :=
  RLocked (
    o ← self;
    let str := checksum_loop (pricePrecision o) (volumePrecision o) (sorted o) "" in
    mret (String.list_byte_of_string str)).

End orderbook.

Arguments Returns {_ A} a o.
Arguments Panics {_ A} o.
Arguments Blocks {_ A} o.

(** ** Notions used in the statements *)

Section notions.
Context `{Externals}.

(** The canonical key of a level: its price at the price precision. *)
Definition level_key (pp : Z) (level : orderBookLevel) : string :=
  stringFixed (Price level) pp.

(** Every level of the table is stored under its canonical key.  The
    empty table of [newOrderBookSide] is, and the methods keep it so. *)
Definition keyed_table (pp : Z) (t : gmap string orderBookLevel) : Prop :=
  ∀ key level, t !! key = Some level → key = level_key pp level.

Definition keyed (o : OrderBookSide) : Prop :=
  keyed_table (pricePrecision o) (m o).

(** [x]'s price is at most [y]'s. *)
Definition price_le (x y : orderBookLevel) : Prop :=
  Cmp (Price x) (Price y) ≤ 0.

(** Best first: ascending prices for asks, descending prices for bids. *)
Definition best_first (asc : bool) : relation orderBookLevel :=
  if asc then price_le else flip price_le.

(** What a call of [applyUpdate] that returns [nil] writes: the key, and
    the level stored under it ([None] when the key is deleted). *)
Definition written (pp : Z) (upd : OrderBookItem)
  : option (string * option orderBookLevel) :=
  match Float64 (item_Volume upd), UnmarshalText pp (item_Price upd) with
  | Ok flValue, Ok price =>
      let key := stringFixed price pp in
      if float64_eq_zero flValue then Some (key, None)
      else
        match UnmarshalText 0 (item_Price upd) with
        | Ok v => Some (key, Some {| Price := price; Volume := v |})
        | Err _ => None
        end
  | _, _ => None
  end.

(** The table after such a write. *)
Definition write (w : string * option orderBookLevel)
    (t : gmap string orderBookLevel) : gmap string orderBookLevel :=
  match w.2 with
  | Some level => <[w.1 := level]> t
  | None => delete w.1 t
  end.

(** The table after a run of such writes, in order. *)
Definition apply_writes (ws : list (string * option orderBookLevel))
    (t : gmap string orderBookLevel) : gmap string orderBookLevel :=
  foldl (λ t w, write w t) t ws.

(** The last write of a run to [key], if the run writes to it at all. *)
Definition last_write (key : string)
    (ws : list (string * option orderBookLevel))
  : option (option orderBookLevel) :=
  foldl (λ last w, if decide (w.1 = key) then Some w.2 else last) None ws.

(** [ws] are the writes of [updates], none of which fails. *)
Definition writes_of (pp : Z) (updates : list OrderBookItem)
    (ws : list (string * option orderBookLevel)) : Prop :=
  Forall2 (λ upd w, written pp upd = Some w) updates ws.

(** Every update of the batch parses. *)
Definition parses (pp : Z) (updates : list OrderBookItem) : Prop :=
  Forall (λ upd, is_Some (written pp upd)) updates.

(** The error [applyUpdate] returns for an update that fails to parse. *)
Definition update_error (pp : Z) (upd : OrderBookItem) : option error :=
  match Float64 (item_Volume upd) with
  | Err err => Some err
  | Ok flValue =>
      match UnmarshalText pp (item_Price upd) with
      | Err err => Some err
      | Ok price =>
          if float64_eq_zero flValue then None
          else
            match UnmarshalText 0 (item_Price upd) with
            | Err err => Some err
            | Ok _ => None
            end
      end
  end.

(** The table after the eviction loop. *)
Definition evicted (pp : Z) (beyond : list orderBookLevel)
    (t : gmap string orderBookLevel) : gmap string orderBookLevel :=
  foldl (λ t level, delete (level_key pp level) t) t beyond.

(** The receiver after a batch that went through: [t] is the table once
    the updates are written, before the resort. *)
Definition resorted (t : gmap string orderBookLevel) (o : OrderBookSide)
  : OrderBookSide :=
  let levels := newOrderBookLevels t (isAsk o) in
  with_sorted (take (Z.to_nat (depth o)) levels)
    (with_m (evicted (pricePrecision o) (drop (Z.to_nat (depth o)) levels) t) o).

(** The second half of [applyUpdates], from [o.mx.Lock()] on, when the
    lock is free: it panics, with the lock held, unless
    [0 <= depth <= len(levels)]. *)
Definition resort (o : OrderBookSide) : outcome (option error) :=
  if (0 <=? depth o) && (depth o <=? Z.of_nat (size (m o)))
  then Returns None (resorted (m o) o)
  else Panics (with_mx true o).

(** The receivers a program can hold: a new side, and whatever a batch
    leaves of one. *)
Inductive reachable : OrderBookSide → Prop :=
  | reachable_new depth pricePrecision volumePrecision isAsk :
      reachable (newOrderBookSide depth pricePrecision volumePrecision isAsk)
  | reachable_batch updates o o' r :
      reachable o → applyUpdates updates o = Returns r o' → reachable o'.

(** The writer and a reader.  [applyUpdates updates] takes and releases
    the lock once for every update and once more for the resort: the
    writer runs it as a sequence of critical sections, between which the
    lock is free.  A reader takes the read lock for a whole call, so it
    runs at a moment when the lock is free: before the batch, after it,
    or between two of its critical sections. *)
Inductive critical : Type :=
  | Update (upd : OrderBookItem)
  | Resort.

Definition sections (updates : list OrderBookItem) : list critical :=
  (Update <$> updates) ++ [Resort].

(** The resort is what [applyUpdates] does once its loop is over. *)
Definition run_section (c : critical) : Go (option error) :=
  match c with
  | Update upd => applyUpdate upd
  | Resort => applyUpdates []
  end.

Fixpoint run_sections (cs : list critical) : Go (option error) :=
  match cs with
  | [] => mret None
  | c :: cs' =>
      r ← run_section c;
      match r with
      | Some err => mret (Some err)
      | None => run_sections cs'
      end
  end.

(** The call [read], scheduled when the writer has run the first [k]
    critical sections of its batch. *)
Definition read_after {A} (k : nat) (updates : list OrderBookItem)
    (read : Go A) : Go A :=
  run_sections (take k (sections updates));; read.

(** What one number adds to the buffer of [checksum]. *)
Definition checksum_field (precision : Z) (big : Big) : string :=
  TrimLeft (Replace (stringFixed big precision) "." "" 1) "0".

(** What a call returns, when it returns. *)
Definition returned {A} (r : outcome A) : option A :=
  match r with
  | Returns a _ => Some a
  | Panics _ | Blocks _ => None
  end.

(** The receiver as a call leaves it, however the call ends. *)
Definition receiver {A} (r : outcome A) : OrderBookSide :=
  match r with
  | Returns _ o | Panics o | Blocks o => o
  end.

End notions.

(** ** The rendering *)

Section rendering.
Context `{Externals}.

(** [x.String()] on a [decimal.Big].  The package only writes the text
    out, so any function will do. *)
Variable Big_String : Big → string.

(** The bytes ['\t'], and ['\r'] followed by ['\n']. *)
Definition tab : string := String "009"%char "".
Definition crlf : string := String "013"%char (String "010"%char "").

(** What one turn of the loop of [String] writes to the builder [str]. *)
Definition String_level (pricePrecision volumePrecision : Z)
    (level : orderBookLevel) (str : string) : string :=
  let str := str +:+ tab in
  let str :=
    if 0 <? pricePrecision
    then str +:+ stringFixed (Price level) pricePrecision
    else str +:+ Big_String (Price level) in
  let str := str +:+ " [ " in
  let str :=
    if 0 <? volumePrecision
    then str +:+ stringFixed (Volume level) volumePrecision
    else str +:+ Big_String (Volume level) in
  str +:+ (" ]" +:+ crlf).

Fixpoint String_loop (pp vp : Z) (levels : list orderBookLevel) (str : string)
  : string :=
  match levels with
  | [] => str
  | level :: levels' => String_loop pp vp levels' (String_level pp vp level str)
  end.

(** The method [String] of [OrderBookSide]. *)
Definition OrderBookSide_String : Go string :=
  RLocked (
    o ← self;
    mret (String_loop (pricePrecision o) (volumePrecision o) (sorted o) "")).

(** The line of one level in the rendering. *)
Definition rendered_line (pp vp : Z) (level : orderBookLevel) : string :=
  tab +:+
  (if 0 <? pp then stringFixed (Price level) pp else Big_String (Price level)) +:+
  " [ " +:+
  (if 0 <? vp then stringFixed (Volume level) vp else Big_String (Volume level)) +:+
  " ]" +:+ crlf.

End rendering.

(** ** The order of a map walk

    [newOrderBookLevels] fills its slice with [for _, value := range m]
    and sorts it.  Go leaves the order of the walk open and changes it
    from one walk to the next, and [sort.Sort] is not stable: when two
    levels of the table have prices that compare equal, either of them
    can come first, and not the same one in every call.  The definitions
    above follow one walk, [map_to_list], and one sort.  The definitions
    below say what a call can return under any of them. *)

Section walks.
Context `{Externals}.

(** [newOrderBookLevels] in a call in which [range m] yields the values
    in the order [walk]. *)
Definition newOrderBookLevels_in (walk : list orderBookLevel) (asc : bool)
  : list orderBookLevel :=
  let result := walk in
  if asc then sort_Sort byPrice_Less result
  else sort_Sort (sort_Reverse byPrice_Less) result.

(** [Less] as [sort.Sort] is given it by [newOrderBookLevels]. *)
Definition byPrice_order (asc : bool) : orderBookLevel → orderBookLevel → bool :=
  if asc then byPrice_Less else sort_Reverse byPrice_Less.

(** [levels] is a slice that [newOrderBookLevels(m, asc)] can return: the
    values of the map, in an order in which no element is [Less] than an
    element before it. *)
Definition arranges (t : gmap string orderBookLevel) (asc : bool)
    (levels : list orderBookLevel) : Prop :=
  levels ≡ₚ map_values t ∧
  ∀ (i j : nat) (x y : orderBookLevel),
    (i < j)%nat → levels !! i = Some x → levels !! j = Some y →
    byPrice_order asc y x = false.

(** What [newOrderBookLevels] returns in one call, for every table it
    could be given. *)
Definition arrangement : Type :=
  gmap string orderBookLevel → bool → list orderBookLevel.

Definition arranging (levels_of : arrangement) : Prop :=
  ∀ t asc, arranges t asc (levels_of t asc).

(** The walk of [map_to_list], backwards. *)
Definition backwards : arrangement :=
  λ t asc, newOrderBookLevels_in (reverse (map_values t)) asc.

(** [applyUpdates], in a call in which [newOrderBookLevels] returns
    [levels_of m asc]. *)
Definition applyUpdates_with (levels_of : arrangement)
    (updates : list OrderBookItem) : Go (option error) :=
  r ← applyUpdates_loop updates;
  match r with
  | Some err => mret (Some err)
  | None =>
      Lock;;
      o ← self;
      let levels := levels_of (m o) (isAsk o) in
      beyond ← sliced (slice_from levels (depth o));
      evict beyond;;
      kept ← sliced (slice_to levels (depth o));
      set_sorted kept;;
      Unlock;;
      mret None
  end.

(** No two keys of the table hold prices that compare equal. *)
Definition tie_free (t : gmap string orderBookLevel) : Prop :=
  ∀ key1 key2 level1 level2,
    t !! key1 = Some level1 → t !! key2 = Some level2 →
    Cmp (Price level1) (Price level2) = 0 → key1 = key2.

(** The same, as a test on the bindings of the table. *)
Definition tie_free_list (bindings : list (string * orderBookLevel)) : bool :=
  forallb (λ a,
    forallb (λ b,
      if Cmp (Price a.2) (Price b.2) =? 0 then bool_decide (a.1 = b.1) else true)
      bindings)
    bindings.

(** The receiver after a batch that went through, when
    [newOrderBookLevels] returned [levels] for the table [t]. *)
Definition resorted_as (levels : list orderBookLevel)
    (t : gmap string orderBookLevel) (o : OrderBookSide) : OrderBookSide :=
  with_sorted (take (Z.to_nat (depth o)) levels)
    (with_m (evicted (pricePrecision o) (drop (Z.to_nat (depth o)) levels) t) o).

(** The second half of [applyUpdates_with], when the lock is free. *)
Definition resort_with (levels_of : arrangement) (o : OrderBookSide)
  : outcome (option error) :=
  let levels := levels_of (m o) (isAsk o) in
  if (0 <=? depth o) && (depth o <=? Z.of_nat (length levels))
  then Returns None (resorted_as levels (m o) o)
  else Panics (with_mx true o).

(** The receivers a program can hold, under any walks: a new side, and
    whatever a batch leaves of one. *)
Inductive attainable : OrderBookSide → Prop :=
  | attainable_new depth pricePrecision volumePrecision isAsk :
      attainable (newOrderBookSide depth pricePrecision volumePrecision isAsk)
  | attainable_batch levels_of updates o o' r :
      arranging levels_of → attainable o →
      applyUpdates_with levels_of updates o = Returns r o' → attainable o'.

End walks.

(** ** A reference implementation of the imports

    Decimals are finite: a sign, a coefficient and an exponent, standing
    for [± coef × 10^exp].  The sign is kept on zero, as the library
    keeps it: [0] and [-0] compare equal and print differently.  Texts are
    decimal numerals (sign, digits, an optional fraction, an optional
    exponent).  Conversion from text is exact whatever the context
    precision.  [%.Nf] prints the sign, and then the coefficient followed
    by zeros when the exponent is positive, and otherwise [N] fractional
    digits of the number rounded half to even.

    The library has values that are not numbers: a text that is not a
    numeral is converted to NaN, and no error is returned.  Those values
    are outside this implementation, which fails on such a text; no run
    below converts one, and none prints a number that has to be
    rounded. *)
Module Ref.

Record dec : Type := { negative : bool; coef : Z; exp : Z }.

#[global] Instance dec_eq_dec : EqDecision dec.
Proof. solve_decision. Defined.

Definition signed (neg : bool) (n : Z) : Z := if neg then - n else n.

(** The number a decimal stands for. *)
Definition val (x : dec) : Q :=
  (inject_Z (signed (negative x) (coef x)) * Qpower 10 (exp x))%Q.

Definition digit (c : ascii) : option Z :=
  let n := Z.of_N (N_of_ascii c) in
  if (48 <=? n) && (n <=? 57) then Some (n - 48) else None.

(** Reads the longest run of digits: its value on top of [acc], how many
    digits were read on top of [n], and the rest of the text. *)
Fixpoint read_digits (s : string) (acc n : Z) : Z * Z * string :=
  match s with
  | EmptyString => (acc, n, EmptyString)
  | String c s' =>
      match digit c with
      | Some d => read_digits s' (10 * acc + d) (n + 1)
      | None => (acc, n, s)
      end
  end.

Definition read_sign (s : string) : bool * string :=
  match s with
  | String "-" s' => (true, s')
  | String "+" s' => (false, s')
  | _ => (false, s)
  end.

(** The decimal and the rest of the text after the mantissa. *)
Definition read_mantissa (s : string) : option (dec * string) :=
  let '(neg, s1) := read_sign s in
  let '(int, ni, s2) := read_digits s1 0 0 in
  let '(c, nf, s3) :=
    match s2 with
    | String "." s2' => read_digits s2' int 0
    | _ => (int, 0, s2)
    end in
  if ni + nf =? 0 then None
  else Some ({| negative := neg; coef := c; exp := - nf |}, s3).

Definition read_exponent (s : string) : option Z :=
  match s with
  | EmptyString => Some 0
  | String c s' =>
      if decide (c = "e"%char ∨ c = "E"%char) then
        let '(neg, s1) := read_sign s' in
        let '(e, ne, s2) := read_digits s1 0 0 in
        if (ne =? 0) || negb (String.eqb s2 "") then None
        else Some (signed neg e)
      else None
  end.

Definition parse (s : string) : option dec :=
  match read_mantissa s with
  | None => None
  | Some (x, rest) =>
      match read_exponent rest with
      | None => None
      | Some e =>
          Some {| negative := negative x; coef := coef x; exp := exp x + e |}
      end
  end.

Definition UnmarshalText (precision : Z) (data : string) : result dec :=
  match parse data with
  | Some x => Ok x
  | None => Err "decimal: invalid syntax"
  end.

Definition Cmp (x y : dec) : Z :=
  match (val x ?= val y)%Q with
  | Lt => -1
  | Eq => 0
  | Gt => 1
  end.

Definition New (value scale : Z) : dec :=
  {| negative := value <? 0; coef := Z.abs value; exp := - scale |}.

(** Rounding a non-negative rational to the nearest integer, ties to the
    even one. *)
Definition round_half_even (q : Q) : Z :=
  let n := Qfloor q in
  match (q - inject_Z n ?= 1 # 2)%Q with
  | Lt => n
  | Gt => n + 1
  | Eq => if Z.even n then n else n + 1
  end.

Definition zeros (n : nat) : string := String.concat "" (replicate n "0").

(** [%.<frac>f]: the sign; then, for a positive exponent, the coefficient
    and as many zeros as the exponent says, with no fraction; otherwise
    the integer digits and, when [frac > 0], a point and [frac]
    fractional digits. *)
Definition format_fixed (frac : nat) (x : dec) : string :=
  (if negative x then "-" else "") +:+
  (if 0 <? exp x then pretty (Z.to_N (coef x)) +:+ zeros (Z.to_nat (exp x))
   else
     let n := round_half_even (Qabs (val x) * Qpower 10 (Z.of_nat frac))%Q in
     let digits := pretty (Z.to_N n) in
     let digits := zeros (S frac - String.length digits)%nat +:+ digits in
     let int := (String.length digits - frac)%nat in
     String.substring 0 int digits +:+
     (if decide (frac = 0)%nat then ""
      else "." +:+ String.substring int frac digits)).

(** The format strings [stringFixed] builds are [%.<digits>f]. *)
Definition read_format (format : string) : option nat :=
  match format with
  | String "%" (String "." s) =>
      let '(frac, n, rest) := read_digits s 0 0 in
      if (0 <? n) && String.eqb rest "f" then Some (Z.to_nat frac) else None
  | _ => None
  end.

Definition Sprintf (format : string) (x : dec) : string :=
  match read_format format with
  | Some frac => format_fixed frac x
  | None => "%!(BADFORMAT)"
  end.

Definition Itoa (n : Z) : string := pretty n.

(** [strconv.ParseFloat(s, 64)]: the nearest [float64], ties to even; a
    range error when that is an infinity. *)
Definition to_float64 (x : dec) : float64 :=
  let neg := negative x in
  if coef x =? 0 then S754_zero neg
  else if 0 <=? exp x then
    binary_normalize 53 1024 (signed neg (coef x * 10 ^ exp x)) 0 neg
  else
    let d := 10 ^ (- exp x) in
    let k := 64 + Z.log2_up d in
    let a := coef x * 2 ^ k in
    let sticky := if a mod d =? 0 then 0 else 1 in
    binary_normalize 53 1024 (signed neg (2 * (a / d) + sticky)) (- (k + 1)) neg.

(** [strconv.Quote] on a text of printable ASCII characters. *)
Definition quoted (s : string) : string :=
  String "034"%char (s +:+ String "034"%char "").

(** The message of the [*strconv.NumError] that [ParseFloat] returns. *)
Definition NumError (s reason : string) : error :=
  "strconv.ParseFloat: parsing " +:+ quoted s +:+ ": " +:+ reason.

Definition Float64 (s : Number) : result float64 :=
  match parse s with
  | None => Err (NumError s "invalid syntax")
  | Some x =>
      match to_float64 x with
      | S754_infinity _ => Err (NumError s "value out of range")
      | f => Ok f
      end
  end.

(** The laws of [Externals]. *)

Lemma Cmp_range x y : Cmp x y = -1 ∨ Cmp x y = 0 ∨ Cmp x y = 1.
Proof. unfold Cmp. destruct (val x ?= val y)%Q; auto. Qed.

Lemma Cmp_opp x y : Cmp y x = - Cmp x y.
Proof.
  unfold Cmp. rewrite <- (Qcompare_antisym (val x) (val y)).
  destruct (val x ?= val y)%Q; reflexivity.
Qed.

Lemma Cmp_le x y : Cmp x y ≤ 0 ↔ (val x <= val y)%Q.
Proof.
  unfold Cmp. rewrite Qle_alt.
  destruct (val x ?= val y)%Q; split; intros; try lia; congruence.
Qed.

Lemma Cmp_le_trans x y z : Cmp x y ≤ 0 → Cmp y z ≤ 0 → Cmp x z ≤ 0.
Proof. rewrite !Cmp_le. apply Qle_trans. Qed.

Definition externals : Externals :=
  Build_Externals dec dec_eq_dec UnmarshalText Cmp New Sprintf Itoa Float64
    Cmp_range Cmp_opp Cmp_le_trans.

End Ref.

(** ** Concrete sides and batches, on the reference implementation *)

Definition item (price volume : string) : OrderBookItem :=
  {| item_Price := price; item_Volume := volume |}.

Definition big (coef exp : Z) : @Big Ref.externals :=
  {| Ref.negative := coef <? 0; Ref.coef := Z.abs coef; Ref.exp := exp |}.

(** The zero with a sign, [-0]. *)
Definition minus_zero : @Big Ref.externals :=
  {| Ref.negative := true; Ref.coef := 0; Ref.exp := 0 |}.

(** The level [applyUpdate] stores for the price [coef × 10^exp]. *)
Definition level (coef exp : Z) : @orderBookLevel Ref.externals :=
  {| Price := big coef exp; Volume := big coef exp |}.

Definition side (depth : Z)
    (levels : list (string * @orderBookLevel Ref.externals))
    (sorted : list (@orderBookLevel Ref.externals)) : @OrderBookSide Ref.externals :=
  {| m := list_to_map levels; sorted := sorted; depth := depth;
     pricePrecision := 5; volumePrecision := 8; isAsk := true; mx := false |}.

(** An empty ask side of depth 2, prices at 5 digits, volumes at 8. *)
Definition asks : @OrderBookSide Ref.externals := newOrderBookSide 2 5 8 true.

(** A first batch of three levels, and the side after it. *)
Definition batch : list OrderBookItem :=
  [item "3.0" "5"; item "1.0" "6"; item "2.0" "7"].

Definition asks_filled : @OrderBookSide Ref.externals :=
  side 2 [("1.00000", level 10 (-1)); ("2.00000", level 20 (-1))]
    [level 10 (-1); level 20 (-1)].

(** The price 2.0 written twice, as 2.0 and then as 2.00, on the side of
    depth 2. *)
Definition asks_twice : @OrderBookSide Ref.externals :=
  side 2 [("1.00000", level 10 (-1)); ("2.00000", level 200 (-2))]
    [level 10 (-1); level 200 (-2)].

(** A side of depth 1 holding the price 1.0. *)
Definition asks_one : @OrderBookSide Ref.externals :=
  side 1 [("1.00000", level 10 (-1))] [level 10 (-1)].

(** The writes of the first batch. *)
Definition batch_writes
  : list (string * option (@orderBookLevel Ref.externals)) :=
  [("3.00000", Some (level 30 (-1)));
   ("1.00000", Some (level 10 (-1)));
   ("2.00000", Some (level 20 (-1)))].

(** * Properties *)

(** ** Sorting *)

Section sort_facts.
Context {A : Type} (less : A → A → bool).

Lemma sort_insert_Permutation x l : sort_insert less x l ≡ₚ x :: l.
Proof.
  induction l as [|y l IH]; simpl; [done|].
  destruct (less y x); [|done]. rewrite IH. apply perm_swap.
Qed.

Lemma sort_Sort_Permutation l : sort_Sort less l ≡ₚ l.
Proof.
  induction l as [|x l IH]; simpl; [done|].
  by rewrite sort_insert_Permutation, IH.
Qed.

(** [R] is an order that [less] decides: [less x y] puts [x] before [y],
    and its failure puts [y] before [x]. *)
Context (R : relation A) `{!Transitive R}.
Hypothesis less_true : ∀ x y, less x y = true → R x y.
Hypothesis less_false : ∀ x y, less x y = false → R y x.

Lemma sort_insert_StronglySorted x l :
  StronglySorted R l → StronglySorted R (sort_insert less x l).
Proof.
  induction 1 as [|y l Hl IH Hy]; simpl.
  { repeat constructor. }
  destruct (less y x) eqn:Hyx.
  - constructor; [done|].
    rewrite sort_insert_Permutation. constructor; [|done]. by apply less_true.
  - apply less_false in Hyx. constructor; [by constructor|].
    constructor; [done|]. eapply Forall_impl; [exact Hy|].
    intros z Hz. by etrans.
Qed.

Lemma sort_Sort_StronglySorted l : StronglySorted R (sort_Sort less l).
Proof.
  induction l; simpl; [constructor|]. by apply sort_insert_StronglySorted.
Qed.
End sort_facts.

(** ** Sorted slices *)

Section sorted_facts.
Context {A : Type} (R : relation A).

Lemma StronglySorted_sublist l k :
  k `sublist_of` l → StronglySorted R l → StronglySorted R k.
Proof.
  induction 1 as [|x k l Hkl IH|x k l Hkl IH]; intros Hl; [done|..].
  - apply StronglySorted_cons in Hl as [Hx Hl].
    constructor; [by apply IH|].
    rewrite Forall_forall in Hx |- *. intros y Hy. apply Hx.
    by eapply elem_of_sublist.
  - apply StronglySorted_cons in Hl as [_ Hl]. by apply IH.
Qed.

Lemma filter_Forall_id (P : A → Prop) `{∀ x, Decision (P x)} l :
  Forall P l → filter P l = l.
Proof.
  induction 1 as [|x l Hx _ IH]; [done|].
  by rewrite filter_cons_True, IH.
Qed.

Lemma StronglySorted_adjacent l i x y :
  StronglySorted R l → l !! i = Some x → l !! S i = Some y → R x y.
Proof.
  intros Hl. revert i. induction Hl as [|z l Hl IH Hz]; intros i Hx Hy; [done|].
  destruct i as [|i]; simpl in *.
  - simplify_eq. rewrite Forall_forall in Hz. apply Hz.
    by eapply list_elem_of_lookup_2.
  - by eapply IH.
Qed.
End sorted_facts.

(** ** The price order and the table *)

Section table_facts.
Context `{Externals}.

#[local] Instance price_le_trans : Transitive price_le.
Proof. intros x y z. apply Cmp_le_trans. Qed.

#[local] Instance best_first_trans asc : Transitive (best_first asc).
Proof.
  destruct asc; simpl; [apply _|].
  intros x y z Hxy Hyz. unfold flip in *. by etrans.
Qed.

Lemma byPrice_Less_true x y : byPrice_Less x y = true → price_le x y.
Proof. unfold byPrice_Less, price_le. intros ?%Z.eqb_eq. lia. Qed.

Lemma byPrice_Less_false x y : byPrice_Less x y = false → price_le y x.
Proof.
  unfold byPrice_Less, price_le. intros ?%Z.eqb_neq.
  rewrite Cmp_opp. destruct (Cmp_range (Price x) (Price y)) as [?|[?|?]]; lia.
Qed.

Lemma newOrderBookLevels_Permutation t asc :
  newOrderBookLevels t asc ≡ₚ map_values t.
Proof. unfold newOrderBookLevels. destruct asc; apply sort_Sort_Permutation. Qed.

Lemma newOrderBookLevels_sorted t asc :
  StronglySorted (best_first asc) (newOrderBookLevels t asc).
Proof.
  unfold newOrderBookLevels. destruct asc; simpl.
  - apply sort_Sort_StronglySorted;
      [apply _|apply byPrice_Less_true|apply byPrice_Less_false].
  - apply sort_Sort_StronglySorted; [apply _|..]; unfold sort_Reverse, flip.
    + intros x y. apply byPrice_Less_true.
    + intros x y. apply byPrice_Less_false.
Qed.

Lemma newOrderBookLevels_length t asc :
  length (newOrderBookLevels t asc) = size t.
Proof.
  rewrite newOrderBookLevels_Permutation. unfold map_values.
  by rewrite length_fmap, length_map_to_list.
Qed.

Lemma elem_of_map_values t level :
  level ∈ map_values t ↔ ∃ key, t !! key = Some level.
Proof.
  unfold map_values. rewrite list_elem_of_fmap. split.
  - intros [[key level'] [-> ?%elem_of_map_to_list]]. by exists key.
  - intros [key ?]. exists (key, level). by rewrite elem_of_map_to_list.
Qed.

Lemma elem_of_map_values_keyed pp t level :
  keyed_table pp t →
  level ∈ map_values t ↔ t !! level_key pp level = Some level.
Proof.
  intros Hk. rewrite elem_of_map_values. split; [|by eauto].
  intros [key Hkey]. by rewrite <- (Hk _ _ Hkey).
Qed.

Lemma NoDup_map_values pp t : keyed_table pp t → NoDup (map_values t).
Proof.
  intros Hk. unfold map_values. apply NoDup_fmap_2_strong.
  - intros [k1 l1] [k2 l2] H1%elem_of_map_to_list H2%elem_of_map_to_list.
    simpl. intros ->. by rewrite (Hk _ _ H1), (Hk _ _ H2).
  - apply NoDup_map_to_list.
Qed.

Lemma keyed_table_write pp upd w t :
  written pp upd = Some w → keyed_table pp t → keyed_table pp (write w t).
Proof.
  unfold written, write. intros Hw Hk key level.
  destruct (Float64 _) as [flValue|]; [|done].
  destruct (UnmarshalText pp _) as [price|]; [|done].
  destruct (float64_eq_zero flValue).
  - simplify_eq. simpl. intros [_ ?]%lookup_delete_Some. by apply Hk.
  - destruct (UnmarshalText 0 _) as [v|]; simplify_eq. simpl.
    intros [[<- <-]|[_ ?]]%lookup_insert_Some; [done|by apply Hk].
Qed.

Lemma evicted_lookup pp beyond t key :
  evicted pp beyond t !! key =
    if decide (key ∈ level_key pp <$> beyond) then None else t !! key.
Proof.
  unfold evicted. revert t.
  induction beyond as [|level beyond IH]; intros t; simpl; [done|].
  rewrite IH. destruct (decide (key = level_key pp level)) as [->|Hne].
  - rewrite lookup_delete_eq.
    rewrite (decide_True (P := _ ∈ _ :: _)) by left.
    by destruct (decide _).
  - rewrite lookup_delete_ne by done.
    apply decide_ext. rewrite elem_of_cons. split; [by right|].
    by intros [?|?].
Qed.

Lemma evicted_subseteq pp beyond t : evicted pp beyond t ⊆ t.
Proof.
  apply map_subseteq_spec. intros key level.
  rewrite evicted_lookup. by case_decide.
Qed.
End table_facts.

(** ** Running the methods *)

Section runs.
Context `{Externals}.

Lemma with_m_unlock t o :
  mx o = false → with_mx false (with_m t (with_mx true o)) = with_m t o.
Proof. destruct o; simpl; intros ->; reflexivity. Qed.

Lemma applyUpdate_run upd o :
  applyUpdate upd o =
    match Float64 (item_Volume upd) with
    | Err err => Returns (Some err) o
    | Ok flValue =>
        match UnmarshalText (pricePrecision o) (item_Price upd) with
        | Err err => Returns (Some err) o
        | Ok price =>
            if mx o then Blocks o
            else
              let key := stringFixed price (pricePrecision o) in
              if float64_eq_zero flValue
              then Returns None (with_m (delete key (m o)) o)
              else
                match UnmarshalText 0 (item_Price upd) with
                | Err err => Returns (Some err) (with_mx true o)
                | Ok v =>
                    Returns None
                      (with_m (<[key := {| Price := price; Volume := v |}]> (m o)) o)
                end
        end
    end.
Proof.
  unfold applyUpdate.
  destruct (Float64 _) as [flValue|]; [|done].
  unfold mbind, Go_bind, self; simpl.
  destruct (UnmarshalText (pricePrecision o) _) as [price|]; [|done].
  unfold Lock. destruct (mx o) eqn:Hmx; [done|]. simpl.
  destruct (float64_eq_zero flValue).
  - unfold set_m, Unlock, mret, Go_ret; simpl. by rewrite with_m_unlock.
  - destruct (UnmarshalText 0 _) as [v|]; [|done].
    unfold set_m, Unlock, mret, Go_ret; simpl. by rewrite with_m_unlock.
Qed.

Lemma evict_run beyond o :
  evict beyond o = Returns tt (with_m (evicted (pricePrecision o) beyond (m o)) o).
Proof.
  revert o. induction beyond as [|level beyond IH]; intros o.
  - by destruct o.
  - simpl. unfold mbind, Go_bind, self, set_m; simpl. by rewrite IH.
Qed.

Lemma applyUpdates_run updates o :
  applyUpdates updates o =
    match applyUpdates_loop updates o with
    | Returns (Some err) o1 => Returns (Some err) o1
    | Returns None o1 => if mx o1 then Blocks o1 else resort o1
    | Panics o1 => Panics o1
    | Blocks o1 => Blocks o1
    end.
Proof.
  unfold applyUpdates, mbind at 1, Go_bind at 1.
  destruct (applyUpdates_loop updates o) as [[err|] o1|o1|o1]; try done.
  unfold mbind, Go_bind, Lock. destruct (mx o1) eqn:Hmx; [done|].
  unfold self, resort, resorted, slice_from, slice_to; simpl.
  rewrite newOrderBookLevels_length.
  destruct (_ && _); simpl; [|done].
  rewrite evict_run. simpl.
  unfold set_sorted, Unlock, mret, Go_ret. simpl.
  destruct o1; simpl in *; by subst.
Qed.
End runs.

(** ** What the methods do to the receiver *)

Section method_facts.
Context `{Externals}.

Lemma with_m_id o : with_m (m o) o = o.
Proof. by destruct o. Qed.

(** An update either parses and writes, or fails with an error. *)
Lemma written_update_error pp upd :
  update_error pp upd = None ↔ is_Some (written pp upd).
Proof.
  unfold update_error, written.
  destruct (Float64 _); [|split; [done|by intros [??]]].
  destruct (UnmarshalText pp _); [|split; [done|by intros [??]]].
  destruct (float64_eq_zero _); [split; eauto|].
  destruct (UnmarshalText 0 _); split; eauto; [done|by intros [??]].
Qed.

(** The volume of a stored level is parsed from the price text. *)
Lemma written_Volume pp upd key level :
  written pp upd = Some (key, Some level) →
  UnmarshalText pp (item_Price upd) = Ok (Price level) ∧
  UnmarshalText 0 (item_Price upd) = Ok (Volume level) ∧
  key = level_key pp level.
Proof.
  unfold written.
  destruct (Float64 _); [|done]. destruct (UnmarshalText pp _); [|done].
  destruct (float64_eq_zero _); [done|].
  destruct (UnmarshalText 0 _); [|done]. by intros [= <- <-].
Qed.

Lemma applyUpdate_written upd o w :
  mx o = false → written (pricePrecision o) upd = Some w →
  applyUpdate upd o = Returns None (with_m (write w (m o)) o).
Proof.
  intros Hmx Hw. rewrite applyUpdate_run, Hmx. unfold written in Hw.
  destruct (Float64 _) as [flValue|]; [|done].
  destruct (UnmarshalText (pricePrecision o) _) as [price|]; [|done].
  simpl. destruct (float64_eq_zero flValue); [by simplify_eq|].
  destruct (UnmarshalText 0 _); by simplify_eq.
Qed.

Lemma applyUpdate_Returns_None upd o o1 :
  applyUpdate upd o = Returns None o1 →
  mx o = false ∧
  ∃ w, written (pricePrecision o) upd = Some w ∧ o1 = with_m (write w (m o)) o.
Proof.
  rewrite applyUpdate_run. unfold written.
  destruct (Float64 _) as [flValue|]; [|done].
  destruct (UnmarshalText (pricePrecision o) _) as [price|]; [|done].
  destruct (mx o); [done|]. simpl.
  destruct (float64_eq_zero flValue).
  { intros [= <-]. eauto. }
  destruct (UnmarshalText 0 _); [|done]. intros [= <-]. eauto.
Qed.

Lemma applyUpdate_error upd o err :
  mx o = false → update_error (pricePrecision o) upd = Some err →
  ∃ o1, applyUpdate upd o = Returns (Some err) o1 ∧
        m o1 = m o ∧ sorted o1 = sorted o.
Proof.
  intros Hmx. rewrite applyUpdate_run, Hmx. unfold update_error.
  destruct (Float64 _) as [flValue|]; [|intros [= <-]; eauto].
  destruct (UnmarshalText (pricePrecision o) _) as [price|];
    [|intros [= <-]; eauto].
  simpl. destruct (float64_eq_zero flValue); [done|].
  destruct (UnmarshalText 0 _); [done|]. intros [= <-]. eauto.
Qed.

Lemma applyUpdates_loop_written updates o ws :
  mx o = false → writes_of (pricePrecision o) updates ws →
  applyUpdates_loop updates o = Returns None (with_m (apply_writes ws (m o)) o).
Proof.
  intros Hmx Hws. remember (pricePrecision o) as pp eqn:Hpp.
  revert o Hmx Hpp.
  induction Hws as [|upd w updates ws Hw _ IH]; intros o Hmx ->; simpl.
  { by rewrite with_m_id. }
  unfold mbind, Go_bind. rewrite (applyUpdate_written _ _ w) by done.
  by rewrite IH.
Qed.

Lemma applyUpdates_loop_Returns_None updates o o1 :
  applyUpdates_loop updates o = Returns None o1 →
  ∃ ws, writes_of (pricePrecision o) updates ws ∧
        o1 = with_m (apply_writes ws (m o)) o.
Proof.
  revert o. induction updates as [|upd updates IH]; intros o; simpl.
  { intros [= <-]. exists []. split; [constructor|]. by destruct o. }
  unfold mbind, Go_bind.
  destruct (applyUpdate upd o) as [[err|] o2|o2|o2] eqn:Hupd; try done.
  apply applyUpdate_Returns_None in Hupd as (_ & w & Hw & ->).
  intros (ws & Hws & ->)%IH. exists (w :: ws). split; [by constructor|done].
Qed.

Lemma applyUpdates_loop_error pre bad post o ws err :
  mx o = false → writes_of (pricePrecision o) pre ws →
  update_error (pricePrecision o) bad = Some err →
  ∃ o1, applyUpdates_loop (pre ++ bad :: post) o = Returns (Some err) o1 ∧
        m o1 = apply_writes ws (m o) ∧ sorted o1 = sorted o.
Proof.
  intros Hmx Hws Hbad. remember (pricePrecision o) as pp eqn:Hpp.
  revert o Hmx Hpp Hbad.
  induction Hws as [|upd w pre ws Hw _ IH]; intros o Hmx -> Hbad; simpl.
  - unfold mbind, Go_bind.
    destruct (applyUpdate_error bad o err) as (o1 & -> & ? & ?); eauto.
  - unfold mbind, Go_bind. rewrite (applyUpdate_written _ _ w) by done.
    destruct (IH (with_m (write w (m o)) o)) as (o1 & -> & ? & ?); eauto.
Qed.

Lemma writes_of_inj pp updates ws ws' :
  writes_of pp updates ws → writes_of pp updates ws' → ws' = ws.
Proof.
  intros Hws. revert ws'.
  induction Hws as [|upd w updates ws Hw _ IH]; intros ws' Hws'.
  { by inv Hws'. }
  inv Hws'. simplify_eq. f_equal. by apply IH.
Qed.

Lemma keyed_table_apply_writes pp updates ws t :
  writes_of pp updates ws → keyed_table pp t → keyed_table pp (apply_writes ws t).
Proof.
  intros Hws. revert t. induction Hws; intros t Ht; simpl; [done|].
  eauto using keyed_table_write.
Qed.

Lemma keyed_table_evicted pp beyond t :
  keyed_table pp t → keyed_table pp (evicted pp beyond t).
Proof.
  intros Ht key level Hlookup. apply Ht.
  by eapply lookup_weaken, evicted_subseteq.
Qed.

(** The levels a successful resort keeps are exactly those it leaves in
    the table. *)
Lemma kept_lookup pp t asc d key level :
  keyed_table pp t →
  let levels := newOrderBookLevels t asc in
  evicted pp (drop d levels) t !! key = Some level ↔
    level ∈ take d levels ∧ key = level_key pp level.
Proof.
  intros Ht levels. rewrite evicted_lookup.
  assert (NoDup (take d levels ++ drop d levels)) as Hnd.
  { rewrite take_drop. unfold levels.
    rewrite newOrderBookLevels_Permutation. by eapply NoDup_map_values. }
  apply NoDup_app in Hnd as (_ & Hdisj & _).
  assert (∀ l, l ∈ levels ↔ t !! level_key pp l = Some l) as Hin.
  { intros l. unfold levels. rewrite newOrderBookLevels_Permutation.
    by apply elem_of_map_values_keyed. }
  assert (∀ l, l ∈ levels ↔ l ∈ take d levels ∨ l ∈ drop d levels) as Hsplit.
  { intros l. by rewrite <- elem_of_app, take_drop. }
  destruct (decide _) as [Hev|Hev]; split.
  - done.
  - intros [Hkept ->]. apply list_elem_of_fmap in Hev as (l & Hkey & Hl).
    assert (l = level) as ->.
    { assert (t !! level_key pp l = Some l) as Hl' by (apply Hin, Hsplit; auto).
      assert (t !! level_key pp level = Some level) as Hlevel
        by (apply Hin, Hsplit; auto).
      rewrite <- Hkey, Hlevel in Hl'. by simplify_eq. }
    by destruct (Hdisj level).
  - intros Hlookup. pose proof (Ht _ _ Hlookup) as ->. split; [|done].
    apply Hin, Hsplit in Hlookup as [?|Hl]; [done|].
    destruct Hev. apply list_elem_of_fmap. eauto.
  - intros [Hkept ->]. apply Hin, Hsplit. auto.
Qed.
End method_facts.

(** ** The three ways a batch ends *)

Section batch_facts.
Context `{Externals}.

Lemma applyUpdates_Returns_None updates o o' :
  applyUpdates updates o = Returns None o' →
  ∃ ws, writes_of (pricePrecision o) updates ws ∧ mx o = false ∧
        0 ≤ depth o ≤ Z.of_nat (size (apply_writes ws (m o))) ∧
        o' = resorted (apply_writes ws (m o)) o.
Proof.
  rewrite applyUpdates_run.
  destruct (applyUpdates_loop updates o) as [[err|] o1|o1|o1] eqn:Hloop;
    try done.
  apply applyUpdates_loop_Returns_None in Hloop as (ws & Hws & ->).
  simpl. destruct (mx o) eqn:Hmx; [done|]. unfold resort. simpl.
  destruct (_ && _) eqn:Hd; [|done]. intros [= <-].
  exists ws. repeat split; try done; lia.
Qed.

Lemma applyUpdates_success updates o ws :
  mx o = false → writes_of (pricePrecision o) updates ws →
  0 ≤ depth o ≤ Z.of_nat (size (apply_writes ws (m o))) →
  applyUpdates updates o = Returns None (resorted (apply_writes ws (m o)) o).
Proof.
  intros Hmx Hws Hd. rewrite applyUpdates_run.
  rewrite (applyUpdates_loop_written _ _ ws) by done. simpl. rewrite Hmx.
  unfold resort. simpl.
  destruct (_ && _) eqn:Hd'; [done|]. lia.
Qed.

Lemma applyUpdates_panic updates o ws :
  mx o = false → writes_of (pricePrecision o) updates ws →
  ¬ (0 ≤ depth o ≤ Z.of_nat (size (apply_writes ws (m o)))) →
  applyUpdates updates o =
    Panics (with_mx true (with_m (apply_writes ws (m o)) o)).
Proof.
  intros Hmx Hws Hd. rewrite applyUpdates_run.
  rewrite (applyUpdates_loop_written _ _ ws) by done. simpl. rewrite Hmx.
  unfold resort. simpl.
  destruct (_ && _) eqn:Hd'; [|done]. lia.
Qed.

Lemma keyed_new d pp vp asc : keyed (newOrderBookSide d pp vp asc).
Proof. intros key level. simpl. by rewrite lookup_empty. Qed.

(** [keyed] is an invariant: however a call of [applyUpdate] or of
    [applyUpdates] ends, it leaves a keyed receiver keyed. *)
Lemma keyed_applyUpdate upd o :
  keyed o → keyed (receiver (applyUpdate upd o)).
Proof.
  intros Ho. rewrite applyUpdate_run.
  destruct (Float64 _) as [flValue|] eqn:Hvol; [|done].
  destruct (UnmarshalText (pricePrecision o) _) as [price|] eqn:Hprice; [|done].
  destruct (mx o); [done|]. simpl.
  destruct (float64_eq_zero flValue) eqn:Hzero.
  - unfold keyed. simpl.
    apply (keyed_table_write (pricePrecision o) upd
             (stringFixed price (pricePrecision o), None)); [|done].
    unfold written. by rewrite Hvol, Hprice, Hzero.
  - destruct (UnmarshalText 0 _) as [v|] eqn:Hv; [|done].
    unfold keyed. simpl.
    apply (keyed_table_write (pricePrecision o) upd
             (stringFixed price (pricePrecision o),
              Some {| Price := price; Volume := v |})); [|done].
    unfold written. by rewrite Hvol, Hprice, Hzero, Hv.
Qed.

Lemma keyed_applyUpdates_loop updates o :
  keyed o → keyed (receiver (applyUpdates_loop updates o)).
Proof.
  revert o. induction updates as [|upd updates IH]; intros o Ho; simpl; [done|].
  unfold mbind, Go_bind.
  pose proof (keyed_applyUpdate upd o Ho) as Hupd.
  destruct (applyUpdate upd o) as [[err|] o1|o1|o1]; try done. by apply IH.
Qed.

Lemma keyed_applyUpdates updates o :
  keyed o → keyed (receiver (applyUpdates updates o)).
Proof.
  intros Ho. rewrite applyUpdates_run.
  pose proof (keyed_applyUpdates_loop updates o Ho) as Hloop.
  destruct (applyUpdates_loop updates o) as [[err|] o1|o1|o1]; try done.
  simpl in Hloop. destruct (mx o1); [done|]. unfold resort.
  destruct (_ && _); [|done]. simpl. by apply keyed_table_evicted.
Qed.
Lemma reachable_keyed o : reachable o → keyed o.
Proof.
  induction 1 as [|updates o o' r _ IH Hrun]; [apply keyed_new|].
  pose proof (keyed_applyUpdates updates o IH) as Hkeyed.
  by rewrite Hrun in Hkeyed.
Qed.
End batch_facts.

(** ** Writing a batch twice *)

Section twice_facts.
Context `{Externals}.

Lemma write_lookup w t key :
  write w t !! key = if decide (w.1 = key) then w.2 else t !! key.
Proof.
  unfold write. destruct w as [k [level|]]; simpl.
  - rewrite lookup_insert. by destruct (decide _).
  - rewrite lookup_delete. by destruct (decide _).
Qed.

Lemma apply_writes_lookup ws t key :
  apply_writes ws t !! key =
    match last_write key ws with
    | Some binding => binding
    | None => t !! key
    end.
Proof.
  unfold apply_writes, last_write.
  induction ws as [|w ws IH] using rev_ind; [done|].
  rewrite !foldl_app. simpl. rewrite write_lookup.
  by destruct (decide _).
Qed.

Lemma last_write_app key ws1 w ws2 :
  w.1 = key → Forall (λ w', w'.1 ≠ key) ws2 →
  last_write key (ws1 ++ w :: ws2) = Some w.2.
Proof.
  intros Hw Hws2. unfold last_write. rewrite foldl_app. simpl.
  rewrite decide_True by done. generalize (Some w.2).
  induction Hws2 as [|w' ws2 Hw' _ IH]; intros last; simpl; [done|].
  by rewrite decide_False.
Qed.

Lemma NoDup_level_keys pp t :
  keyed_table pp t → NoDup (level_key pp <$> map_values t).
Proof.
  intros Ht. apply NoDup_fmap_2_strong; [|by eapply NoDup_map_values].
  intros x y Hx%(elem_of_map_values_keyed pp) Hy%(elem_of_map_values_keyed pp);
    [|done..].
  intros Hxy. rewrite Hxy in Hx. congruence.
Qed.

Lemma best_first_tie asc x y :
  best_first asc x y → best_first asc y x → Cmp (Price x) (Price y) = 0.
Proof.
  destruct asc; unfold best_first, flip, price_le; intros Hxy Hyx.
  - rewrite Cmp_opp in Hyx. lia.
  - rewrite Cmp_opp in Hxy. lia.
Qed.

Lemma parses_writes_of pp updates :
  parses pp updates → ∃ ws, writes_of pp updates ws.
Proof.
  induction 1 as [|upd updates [w Hw] _ [ws IH]].
  - exists []. constructor.
  - exists (w :: ws). by constructor.
Qed.

Lemma applyUpdates_blocked updates o :
  mx o = true → parses (pricePrecision o) updates →
  applyUpdates updates o = Blocks o.
Proof.
  intros Hmx Hparses. rewrite applyUpdates_run.
  destruct Hparses as [|upd updates [w Hw] _]; simpl.
  { by rewrite Hmx. }
  unfold mbind, Go_bind. rewrite applyUpdate_run, Hmx. unfold written in Hw.
  destruct (Float64 _); [|done]. by destruct (UnmarshalText _ _).
Qed.

Lemma applyUpdates_no_error updates o err o1 :
  parses (pricePrecision o) updates →
  applyUpdates updates o ≠ Returns (Some err) o1.
Proof.
  intros Hparses. destruct (mx o) eqn:Hmx.
  { by rewrite applyUpdates_blocked. }
  destruct (parses_writes_of _ _ Hparses) as [ws Hws].
  destruct (decide (0 ≤ depth o ≤ Z.of_nat (size (apply_writes ws (m o))))).
  - by rewrite (applyUpdates_success _ _ ws).
  - by rewrite (applyUpdates_panic _ _ ws).
Qed.

End twice_facts.

(** ** Reading the receiver *)

Section read_facts.
Context `{Externals}.

Lemma string_app_cons c (s1 s2 : string) :
  String c s1 +:+ s2 = String c (s1 +:+ s2).
Proof. reflexivity. Qed.

Lemma string_app_assoc (s1 s2 s3 : string) :
  (s1 +:+ s2) +:+ s3 = s1 +:+ (s2 +:+ s3).
Proof.
  induction s1 as [|c s1 IH]; [done|]. by rewrite !string_app_cons, IH.
Qed.

Lemma string_app_nil_r (s : string) : s +:+ "" = s.
Proof.
  induction s as [|c s IH]; [done|]. by rewrite string_app_cons, IH.
Qed.

Lemma checksum_loop_foldr pp vp levels str :
  checksum_loop pp vp levels str =
    str +:+ foldr (λ level rest, checksum_level pp vp level +:+ rest) "" levels.
Proof.
  revert str.
  induction levels as [|level levels IH]; intros str; cbn [checksum_loop foldr].
  - by rewrite string_app_nil_r.
  - by rewrite IH, string_app_assoc.
Qed.

(** The readers only look at the table, at [sorted] and at the
    precisions. *)
Lemma Get_run price o :
  mx o = false →
  Get price o =
    Returns match m o !! stringFixed price (pricePrecision o) with
            | None => (New 0 0, false)
            | Some level => (Volume level, true)
            end o.
Proof.
  intros Hmx. unfold Get, RLocked. rewrite Hmx.
  unfold mbind, Go_bind, self. by destruct (m o !! _).
Qed.

Lemma Range_run handler o :
  mx o = false → Range handler o = Returns (Range_loop handler (sorted o)) o.
Proof. intros Hmx. unfold Range, RLocked. by rewrite Hmx. Qed.

Lemma Best_run o :
  mx o = false →
  Best o =
    Returns match sorted o with
            | [] => (New 0 0, New 0 0)
            | level :: _ => (Price level, Volume level)
            end o.
Proof.
  intros Hmx. unfold Best, RLocked. rewrite Hmx.
  unfold mbind, Go_bind, self. by destruct (sorted o).
Qed.

Lemma checksum_run o :
  mx o = false →
  checksum o =
    Returns (String.list_byte_of_string
               (checksum_loop (pricePrecision o) (volumePrecision o) (sorted o) ""))
      o.
Proof. intros Hmx. unfold checksum, RLocked. by rewrite Hmx. Qed.
Lemma run_sections_Update updates o :
  run_sections (Update <$> updates) o = applyUpdates_loop updates o.
Proof.
  revert o. induction updates as [|upd updates IH]; intros o; simpl; [done|].
  unfold mbind, Go_bind.
  by destruct (applyUpdate upd o) as [[err|] o1|o1|o1].
Qed.

Lemma run_sections_app cs1 cs2 o :
  run_sections (cs1 ++ cs2) o =
    match run_sections cs1 o with
    | Returns None o1 => run_sections cs2 o1
    | r => r
    end.
Proof.
  revert o. induction cs1 as [|c cs1 IH]; intros o; simpl; [done|].
  unfold mbind, Go_bind.
  by destruct (run_section c o) as [[err|] o1|o1|o1].
Qed.

(** The critical sections, run one after the other, are the batch. *)
Lemma run_sections_applyUpdates updates o :
  run_sections (sections updates) o = applyUpdates updates o.
Proof.
  unfold sections. rewrite run_sections_app, run_sections_Update.
  rewrite (applyUpdates_run updates).
  destruct (applyUpdates_loop updates o) as [[err|] o1|o1|o1]; try done.
  simpl. unfold mbind, Go_bind.
  rewrite (applyUpdates_run []). simpl.
  destruct (mx o1); [done|]. by destruct (resort o1) as [[err|] o2|o2|o2].
Qed.

Lemma take_sections k updates :
  (k ≤ length updates)%nat →
  take k (sections updates) = Update <$> take k updates.
Proof.
  intros Hk. unfold sections.
  rewrite take_app_le by (by rewrite length_fmap). by rewrite fmap_take.
Qed.
End read_facts.

(** ** Any walk of the map *)

Section walk_facts.
Context `{Externals}.

#[local] Existing Instance price_le_trans.
#[local] Existing Instance best_first_trans.

Lemma StronglySorted_lookup_lt {A} (R : relation A) l i j x y :
  StronglySorted R l → (i < j)%nat →
  l !! i = Some x → l !! j = Some y → R x y.
Proof.
  intros Hl Hij Hx Hy.
  rewrite <- (take_drop_middle l i x Hx) in Hl.
  apply StronglySorted_app_1_r, StronglySorted_cons in Hl as [Hall _].
  rewrite Forall_forall in Hall. apply Hall.
  apply list_elem_of_lookup. exists (j - S i)%nat.
  rewrite lookup_drop. rewrite <- Hy. f_equal. lia.
Qed.

Lemma StronglySorted_lookup_2 {A} (R : relation A) l :
  (∀ i j x y, (i < j)%nat → l !! i = Some x → l !! j = Some y → R x y) →
  StronglySorted R l.
Proof.
  induction l as [|x l IH]; intros Hl; [constructor|].
  apply StronglySorted_cons. split.
  - apply Forall_forall. intros y (j & Hj)%list_elem_of_lookup.
    apply (Hl 0%nat (S j)); [lia|done..].
  - apply IH. intros i j y z Hij Hy Hz.
    apply (Hl (S i) (S j)); [lia|done..].
Qed.

(** [sort.Sort] leaves no element [Less] than one before it: the slice
    is best first. *)
Lemma byPrice_order_best_first asc x y :
  byPrice_order asc y x = false ↔ best_first asc x y.
Proof.
  unfold byPrice_order, best_first, sort_Reverse, byPrice_Less, flip, price_le.
  destruct asc; rewrite Z.eqb_neq, (Cmp_opp (Price x) (Price y));
    destruct (Cmp_range (Price x) (Price y)) as [?|[?|?]]; lia.
Qed.

Lemma arranges_sorted t asc levels :
  arranges t asc levels → StronglySorted (best_first asc) levels.
Proof.
  intros [_ Hsorted]. apply StronglySorted_lookup_2.
  intros i j x y Hij Hx Hy. apply byPrice_order_best_first. eauto.
Qed.

Lemma sorted_arranges t asc levels :
  levels ≡ₚ map_values t → StronglySorted (best_first asc) levels →
  arranges t asc levels.
Proof.
  intros Hperm Hsorted. split; [done|]. intros i j x y Hij Hx Hy.
  apply byPrice_order_best_first. by eapply StronglySorted_lookup_lt.
Qed.

Lemma arranges_length t asc levels :
  arranges t asc levels → length levels = size t.
Proof.
  intros [-> _]. unfold map_values. by rewrite length_fmap, length_map_to_list.
Qed.

Lemma arranges_elem_of t asc levels level :
  arranges t asc levels → level ∈ levels ↔ ∃ key, t !! key = Some level.
Proof. intros [-> _]. apply elem_of_map_values. Qed.

Lemma newOrderBookLevels_in_Permutation walk asc :
  newOrderBookLevels_in walk asc ≡ₚ walk.
Proof. unfold newOrderBookLevels_in. destruct asc; apply sort_Sort_Permutation. Qed.

Lemma newOrderBookLevels_in_sorted walk asc :
  StronglySorted (best_first asc) (newOrderBookLevels_in walk asc).
Proof.
  unfold newOrderBookLevels_in. destruct asc; simpl.
  - apply sort_Sort_StronglySorted;
      [apply _|apply byPrice_Less_true|apply byPrice_Less_false].
  - apply sort_Sort_StronglySorted; [apply _|..]; unfold sort_Reverse, flip.
    + intros x y. apply byPrice_Less_true.
    + intros x y. apply byPrice_Less_false.
Qed.

(** Whatever the walk, [newOrderBookLevels] returns an arrangement. *)
Lemma newOrderBookLevels_in_arranges t asc walk :
  walk ≡ₚ map_values t → arranges t asc (newOrderBookLevels_in walk asc).
Proof.
  intros Hwalk. apply sorted_arranges.
  - by rewrite newOrderBookLevels_in_Permutation.
  - apply newOrderBookLevels_in_sorted.
Qed.

Lemma newOrderBookLevels_arranging : arranging newOrderBookLevels.
Proof. intros t asc. by apply (newOrderBookLevels_in_arranges t asc (map_values t)). Qed.

Lemma backwards_arranging : arranging backwards.
Proof.
  intros t asc. apply newOrderBookLevels_in_arranges. apply reverse_Permutation.
Qed.

(** Tables without ties. *)

Lemma tie_free_list_spec t : tie_free_list (map_to_list t) = true → tie_free t.
Proof.
  unfold tie_free_list. rewrite forallb_forall.
  intros Hall key1 key2 level1 level2
    H1%elem_of_map_to_list%list_elem_of_In H2%elem_of_map_to_list%list_elem_of_In
    Hcmp.
  specialize (Hall _ H1). rewrite forallb_forall in Hall.
  specialize (Hall _ H2). simpl in Hall. rewrite Hcmp in Hall. simpl in Hall.
  by apply bool_decide_eq_true in Hall.
Qed.

Lemma tie_free_subseteq t t' : t' ⊆ t → tie_free t → tie_free t'.
Proof.
  intros Hsub Ht key1 key2 level1 level2 H1 H2.
  apply Ht; by eapply lookup_weaken.
Qed.

Lemma tie_free_values t x y :
  tie_free t → x ∈ map_values t → y ∈ map_values t →
  Cmp (Price x) (Price y) = 0 → x = y.
Proof.
  intros Ht [key1 H1]%elem_of_map_values [key2 H2]%elem_of_map_values Hcmp.
  pose proof (Ht _ _ _ _ H1 H2 Hcmp) as ->. congruence.
Qed.

(** A table without ties has one arrangement: there the walk and the
    sort do not matter. *)
Lemma arranges_unique t asc levels levels' :
  tie_free t → arranges t asc levels → arranges t asc levels' →
  levels = levels'.
Proof.
  intros Ht Hlevels Hlevels'.
  apply (StronglySorted_unique_strong (best_first asc)).
  - intros x y Hx Hy Hxy Hyx.
    rewrite (proj1 Hlevels) in Hx. rewrite (proj1 Hlevels') in Hy.
    apply (tie_free_values t); [done..|]. by eapply best_first_tie.
  - by eapply arranges_sorted.
  - by eapply arranges_sorted.
  - by rewrite (proj1 Hlevels), (proj1 Hlevels').
Qed.

(** The eviction loop, for any arrangement of the table. *)

Lemma kept_lookup_in pp t levels d key level :
  keyed_table pp t → levels ≡ₚ map_values t →
  evicted pp (drop d levels) t !! key = Some level ↔
    level ∈ take d levels ∧ key = level_key pp level.
Proof.
  intros Ht Hperm. rewrite evicted_lookup.
  assert (NoDup (take d levels ++ drop d levels)) as Hnd.
  { rewrite take_drop, Hperm. by eapply NoDup_map_values. }
  apply NoDup_app in Hnd as (_ & Hdisj & _).
  assert (∀ l, l ∈ levels ↔ t !! level_key pp l = Some l) as Hin.
  { intros l. rewrite Hperm. by apply elem_of_map_values_keyed. }
  assert (∀ l, l ∈ levels ↔ l ∈ take d levels ∨ l ∈ drop d levels) as Hsplit.
  { intros l. by rewrite <- elem_of_app, take_drop. }
  destruct (decide _) as [Hev|Hev]; split.
  - done.
  - intros [Hkept ->]. apply list_elem_of_fmap in Hev as (l & Hkey & Hl).
    assert (l = level) as ->.
    { assert (t !! level_key pp l = Some l) as Hl' by (apply Hin, Hsplit; auto).
      assert (t !! level_key pp level = Some level) as Hlevel
        by (apply Hin, Hsplit; auto).
      rewrite <- Hkey, Hlevel in Hl'. by simplify_eq. }
    by destruct (Hdisj level).
  - intros Hlookup. pose proof (Ht _ _ Hlookup) as ->. split; [|done].
    apply Hin, Hsplit in Hlookup as [?|Hl]; [done|].
    destruct Hev. apply list_elem_of_fmap. eauto.
  - intros [Hkept ->]. apply Hin, Hsplit. auto.
Qed.

(** The levels kept by the resort are the levels left in the table. *)
Lemma kept_Permutation_in pp t levels d :
  keyed_table pp t → levels ≡ₚ map_values t →
  take d levels ≡ₚ map_values (evicted pp (drop d levels) t).
Proof.
  intros Ht Hperm.
  pose proof (keyed_table_evicted pp (drop d levels) t Ht) as HE.
  apply NoDup_Permutation.
  - eapply sublist_NoDup; [|apply sublist_take].
    rewrite Hperm. by eapply NoDup_map_values.
  - by eapply NoDup_map_values.
  - intros level. rewrite (elem_of_map_values_keyed pp) by done.
    rewrite (kept_lookup_in pp t levels d _ level Ht Hperm). tauto.
Qed.

Lemma kept_size_in pp t levels d :
  keyed_table pp t → levels ≡ₚ map_values t → (d ≤ size t)%nat →
  size (evicted pp (drop d levels) t) = d.
Proof.
  intros Ht Hperm Hd. rewrite <- length_map_to_list.
  rewrite <- (length_fmap snd).
  fold (map_values (evicted pp (drop d levels) t)).
  rewrite <- (kept_Permutation_in pp t levels d Ht Hperm).
  apply length_take_le. rewrite Hperm. unfold map_values.
  by rewrite length_fmap, length_map_to_list.
Qed.

Lemma arranges_kept pp t asc levels d :
  keyed_table pp t → arranges t asc levels →
  arranges (evicted pp (drop d levels) t) asc (take d levels).
Proof.
  intros Ht [Hperm Hsorted]. split; [by apply kept_Permutation_in|].
  intros i j x y Hij [Hx _]%lookup_take_Some [Hy _]%lookup_take_Some. eauto.
Qed.

(** The arrangement of a part of a table without ties is the arrangement
    of the table, filtered. *)
Lemma arranges_subseteq pp t t' asc levels levels' :
  keyed_table pp t → tie_free t → t' ⊆ t →
  arranges t asc levels → arranges t' asc levels' →
  levels' = filter (λ level, t' !! level_key pp level = Some level) levels.
Proof.
  intros Ht Hfree Hsub Hlevels Hlevels'.
  assert (keyed_table pp t') as Ht'.
  { intros key level Hlookup. apply Ht. by eapply lookup_weaken. }
  apply (arranges_unique t' asc); [by eapply tie_free_subseteq|done|].
  apply sorted_arranges.
  - apply NoDup_Permutation.
    + apply NoDup_filter. rewrite (proj1 Hlevels). by eapply NoDup_map_values.
    + by eapply NoDup_map_values.
    + intros level. rewrite list_elem_of_filter, (proj1 Hlevels).
      rewrite !(elem_of_map_values_keyed pp) by done. split; [by intros []|].
      intros Hlookup. split; [done|]. by eapply lookup_weaken.
  - eapply StronglySorted_sublist; [apply sublist_filter|].
    by eapply arranges_sorted.
Qed.

(** Running a batch with its arrangement. *)

Lemma applyUpdates_with_run levels_of updates o :
  applyUpdates_with levels_of updates o =
    match applyUpdates_loop updates o with
    | Returns (Some err) o1 => Returns (Some err) o1
    | Returns None o1 => if mx o1 then Blocks o1 else resort_with levels_of o1
    | Panics o1 => Panics o1
    | Blocks o1 => Blocks o1
    end.
Proof.
  unfold applyUpdates_with, mbind at 1, Go_bind at 1.
  destruct (applyUpdates_loop updates o) as [[err|] o1|o1|o1]; try done.
  unfold mbind, Go_bind, Lock. destruct (mx o1) eqn:Hmx; [done|].
  unfold self, resort_with, resorted_as, slice_from, slice_to; simpl.
  destruct (_ && _); simpl; [|done].
  rewrite evict_run. simpl.
  unfold set_sorted, Unlock, mret, Go_ret. simpl.
  destruct o1; simpl in *; by subst.
Qed.

(** The batch of the claims is the batch under the walk of [map_to_list]. *)
Lemma applyUpdates_with_newOrderBookLevels updates o :
  applyUpdates_with newOrderBookLevels updates o = applyUpdates updates o.
Proof. reflexivity. Qed.

Lemma applyUpdates_with_Returns_None levels_of updates o o' :
  arranging levels_of →
  applyUpdates_with levels_of updates o = Returns None o' →
  ∃ ws, writes_of (pricePrecision o) updates ws ∧ mx o = false ∧
        0 ≤ depth o ≤ Z.of_nat (size (apply_writes ws (m o))) ∧
        o' = resorted_as (levels_of (apply_writes ws (m o)) (isAsk o))
               (apply_writes ws (m o)) o.
Proof.
  intros Harr. rewrite applyUpdates_with_run.
  destruct (applyUpdates_loop updates o) as [[err|] o1|o1|o1] eqn:Hloop;
    try done.
  apply applyUpdates_loop_Returns_None in Hloop as (ws & Hws & ->).
  simpl. destruct (mx o) eqn:Hmx; [done|]. unfold resort_with. simpl.
  rewrite (arranges_length _ _ _ (Harr _ _)).
  destruct (_ && _) eqn:Hd; [|done]. intros [= <-].
  exists ws. repeat split; try done; lia.
Qed.

Lemma applyUpdates_with_success levels_of updates o ws :
  arranging levels_of →
  mx o = false → writes_of (pricePrecision o) updates ws →
  0 ≤ depth o ≤ Z.of_nat (size (apply_writes ws (m o))) →
  applyUpdates_with levels_of updates o =
    Returns None
      (resorted_as (levels_of (apply_writes ws (m o)) (isAsk o))
         (apply_writes ws (m o)) o).
Proof.
  intros Harr Hmx Hws Hd. rewrite applyUpdates_with_run.
  rewrite (applyUpdates_loop_written _ _ ws) by done. simpl. rewrite Hmx.
  unfold resort_with. simpl. rewrite (arranges_length _ _ _ (Harr _ _)).
  destruct (_ && _) eqn:Hd'; [done|]. lia.
Qed.

Lemma applyUpdates_with_panic levels_of updates o ws :
  arranging levels_of →
  mx o = false → writes_of (pricePrecision o) updates ws →
  ¬ (0 ≤ depth o ≤ Z.of_nat (size (apply_writes ws (m o)))) →
  applyUpdates_with levels_of updates o =
    Panics (with_mx true (with_m (apply_writes ws (m o)) o)).
Proof.
  intros Harr Hmx Hws Hd. rewrite applyUpdates_with_run.
  rewrite (applyUpdates_loop_written _ _ ws) by done. simpl. rewrite Hmx.
  unfold resort_with. simpl. rewrite (arranges_length _ _ _ (Harr _ _)).
  destruct (_ && _) eqn:Hd'; [|done]. lia.
Qed.

Lemma applyUpdates_with_blocked levels_of updates o :
  mx o = true → parses (pricePrecision o) updates →
  applyUpdates_with levels_of updates o = Blocks o.
Proof.
  intros Hmx Hparses. rewrite applyUpdates_with_run.
  destruct Hparses as [|upd updates [w Hw] _]; simpl.
  { by rewrite Hmx. }
  unfold mbind, Go_bind. rewrite applyUpdate_run, Hmx. unfold written in Hw.
  destruct (Float64 _); [|done]. by destruct (UnmarshalText _ _).
Qed.

Lemma applyUpdates_with_no_error levels_of updates o err o1 :
  arranging levels_of →
  parses (pricePrecision o) updates →
  applyUpdates_with levels_of updates o ≠ Returns (Some err) o1.
Proof.
  intros Harr Hparses. destruct (mx o) eqn:Hmx.
  { by rewrite applyUpdates_with_blocked. }
  destruct (parses_writes_of _ _ Hparses) as [ws Hws].
  destruct (decide (0 ≤ depth o ≤ Z.of_nat (size (apply_writes ws (m o))))).
  - by rewrite (applyUpdates_with_success _ _ _ ws).
  - by rewrite (applyUpdates_with_panic _ _ _ ws).
Qed.

Lemma writes_of_parses pp updates ws :
  writes_of pp updates ws → parses pp updates.
Proof.
  intros Hws. eapply Forall2_Forall_l; [exact Hws|].
  apply Forall_forall. intros w _ upd ->. by eexists.
Qed.

Lemma keyed_applyUpdates_with levels_of updates o :
  keyed o → keyed (receiver (applyUpdates_with levels_of updates o)).
Proof.
  intros Ho. rewrite applyUpdates_with_run.
  pose proof (keyed_applyUpdates_loop updates o Ho) as Hloop.
  destruct (applyUpdates_loop updates o) as [[err|] o1|o1|o1]; try done.
  simpl in Hloop. destruct (mx o1); [done|]. unfold resort_with.
  destruct (_ && _); [|done]. simpl. by apply keyed_table_evicted.
Qed.

Lemma attainable_keyed o : attainable o → keyed o.
Proof.
  induction 1 as [|levels_of updates o o' r _ _ IH Hrun]; [apply keyed_new|].
  pose proof (keyed_applyUpdates_with levels_of updates o IH) as Hkeyed.
  by rewrite Hrun in Hkeyed.
Qed.

(** What a completed batch leaves, under any walk. *)
Lemma applyUpdates_with_settled levels_of updates o o' :
  arranging levels_of → keyed o →
  applyUpdates_with levels_of updates o = Returns None o' →
  keyed o' ∧ mx o' = false ∧
  arranges (m o') (isAsk o') (sorted o') ∧
  Z.of_nat (size (m o')) = depth o' ∧
  Z.of_nat (length (sorted o')) = depth o'.
Proof.
  intros Harr Ho (ws & Hws & Hmx & Hd & ->)%applyUpdates_with_Returns_None;
    [|done].
  pose proof (keyed_table_apply_writes _ _ _ _ Hws Ho) as Ht.
  pose proof (Harr (apply_writes ws (m o)) (isAsk o)) as Hlevels.
  unfold resorted_as, keyed. simpl. split_and!.
  - by apply keyed_table_evicted.
  - done.
  - by apply arranges_kept.
  - rewrite (kept_size_in (pricePrecision o)); [lia|done|apply Hlevels|lia].
  - rewrite length_take_le; [lia|].
    rewrite (arranges_length _ _ _ Hlevels). lia.
Qed.

(** Writing the batch again into the resorted table and resorting again,
    under another walk, changes nothing when the table has no ties. *)
Lemma resort_stable pp asc d updates ws t L L' :
  keyed_table pp t → writes_of pp updates ws →
  let M := apply_writes ws t in
  let E := evicted pp (drop d L) M in
  let M' := apply_writes ws E in
  tie_free M → arranges M asc L → arranges M' asc L' →
  (d ≤ length L)%nat →
  take d L' = take d L ∧ evicted pp (drop d L') M' = E ∧ (d ≤ length L')%nat.
Proof.
  intros Ht Hws M E M' Hfree HL HL' Hd.
  assert (keyed_table pp M) as HM by by eapply keyed_table_apply_writes.
  assert (keyed_table pp E) as HE by by apply keyed_table_evicted.
  assert (keyed_table pp M') as HM' by by eapply keyed_table_apply_writes.
  assert (E ⊆ M) as HEM by apply evicted_subseteq.
  assert (M' ⊆ M) as HM'M.
  { apply map_subseteq_spec. intros key level. unfold M', M.
    rewrite !apply_writes_lookup.
    destruct (last_write key ws) eqn:Hlast; [done|].
    intros Hlookup. pose proof (lookup_weaken _ _ _ _ Hlookup HEM) as HMk.
    unfold M in HMk. by rewrite apply_writes_lookup, Hlast in HMk. }
  assert (E ⊆ M') as HEM'.
  { apply map_subseteq_spec. intros key level Hlookup. unfold M'.
    rewrite apply_writes_lookup.
    destruct (last_write key ws) eqn:Hlast; [|done].
    pose proof (lookup_weaken _ _ _ _ Hlookup HEM) as HMk.
    unfold M in HMk. by rewrite apply_writes_lookup, Hlast in HMk. }
  assert (L' = take d L ++
            filter (λ level, M' !! level_key pp level = Some level) (drop d L))
    as HL'eq.
  { rewrite (arranges_subseteq pp M M' asc L L') by done.
    rewrite <- (take_drop d L) at 1. rewrite filter_app. f_equal.
    apply filter_Forall_id, Forall_forall. intros level Hlevel.
    eapply lookup_weaken; [|exact HEM'].
    by apply (kept_lookup_in pp M L d); [|apply HL|]. }
  assert (length (take d L) = d) as Hlen by (rewrite length_take; lia).
  assert (take d L' = take d L) as Htake by by rewrite HL'eq, take_app_length'.
  split_and!; [done| |rewrite HL'eq, length_app; lia].
  apply map_eq. intros key. apply option_eq. intros level.
  pose proof (kept_lookup_in pp M' L' d key level HM' (proj1 HL')) as Hkept'.
  pose proof (kept_lookup_in pp M L d key level HM (proj1 HL)) as Hkept.
  rewrite Htake in Hkept'. etrans; [exact Hkept'|]. symmetry. exact Hkept.
Qed.

(** A completed batch, applied again under another walk, returns and
    leaves the receiver as it is, when the table it wrote has no ties. *)
Lemma applyUpdates_with_again levels_of levels_of' updates ws o o1 :
  arranging levels_of → arranging levels_of' →
  keyed o →
  writes_of (pricePrecision o) updates ws →
  tie_free (apply_writes ws (m o)) →
  applyUpdates_with levels_of updates o = Returns None o1 →
  applyUpdates_with levels_of' updates o1 = Returns None o1.
Proof.
  intros Harr Harr' Ho Hws Hfree
    (ws' & Hws' & Hmx & Hd & ->)%applyUpdates_with_Returns_None; [|done].
  assert (ws' = ws) as -> by eauto using writes_of_inj.
  pose proof (Harr (apply_writes ws (m o)) (isAsk o)) as HL.
  destruct (resort_stable (pricePrecision o) (isAsk o) (Z.to_nat (depth o))
              updates ws (m o) _ _ Ho Hws Hfree HL (Harr' _ _))
    as (Htake & Hev & Hlen).
  { rewrite (arranges_length _ _ _ HL). lia. }
  rewrite (arranges_length _ _ _ (Harr' _ _)) in Hlen.
  rewrite (applyUpdates_with_success _ _ _ ws); [|done..|simpl; lia].
  f_equal. unfold resorted_as. simpl. by rewrite Htake, Hev.
Qed.

End walk_facts.

(** * The properties of the specification *)

Section specification.
Context `{Externals}.

(** C5.  After a batch that [applyUpdates] completed, [sorted] is best
    first: of two neighbours the earlier has the lower or equal price on
    the ask side, the higher or equal price on the bid side. *)
Theorem sorted_best_first updates o o' i x y :
  applyUpdates updates o = Returns None o' →
  sorted o' !! i = Some x →
  sorted o' !! S i = Some y →
  if isAsk o' then Cmp (Price x) (Price y) ≤ 0
  else 0 ≤ Cmp (Price x) (Price y).
Proof.
  intros (ws & _ & _ & _ & ->)%applyUpdates_Returns_None Hx Hy.
  simpl in *.
  assert (best_first (isAsk o) x y) as Hxy.
  { eapply StronglySorted_adjacent; [|exact Hx|exact Hy].
    eapply StronglySorted_sublist; [apply sublist_take|].
    apply newOrderBookLevels_sorted. }
  destruct (isAsk o); simpl in Hxy; [done|].
  unfold flip, price_le in Hxy. rewrite Cmp_opp in Hxy. lia.
Qed.

(** C3.  After a batch that [applyUpdates] completed, on a receiver that
    was keyed (as every reachable one is), [sorted] holds at most [depth]
    levels, every level left in the table [m] is in [sorted], every level
    of [sorted] is in the table, and every level that the updates had put
    in the table but that fell beyond [depth] is gone from the table. *)
Theorem depth_bound_and_eviction updates o o' :
  keyed o →
  applyUpdates updates o = Returns None o' →
  Z.of_nat (length (sorted o')) ≤ depth o' ∧
  (∀ key level, m o' !! key = Some level → level ∈ sorted o') ∧
  (∀ level, level ∈ sorted o' →
     m o' !! level_key (pricePrecision o') level = Some level) ∧
  (∀ ws key level,
     writes_of (pricePrecision o) updates ws →
     apply_writes ws (m o) !! key = Some level →
     level ∉ sorted o' → m o' !! key = None).
Proof.
  intros Ho (ws & Hws & _ & Hd & ->)%applyUpdates_Returns_None.
  pose proof (keyed_table_apply_writes _ _ _ _ Hws Ho) as Ht.
  unfold resorted. simpl. split_and!.
  - rewrite length_take. lia.
  - intros key level Hlookup. by apply (kept_lookup _ _ _ _ _ _ Ht) in Hlookup as [].
  - intros level Hlevel. by apply (kept_lookup _ _ _ _ _ _ Ht).
  - intros ws' key level Hws' Hlookup Hout.
    assert (ws' = ws) as -> by eauto using writes_of_inj.
    destruct (evicted _ _ _ !! key) as [level'|] eqn:Hkept; [|done].
    pose proof (lookup_weaken _ _ _ _ Hkept (evicted_subseteq _ _ _)).
    simplify_eq. apply (kept_lookup _ _ _ _ _ _ Ht) in Hkept as []. done.
Qed.

(** C6.  When an update of a batch fails to parse, [applyUpdates] has
    applied the updates before it, stops there and returns that error
    without resorting or evicting: the table holds the writes of the
    updates before the failing one and [sorted] is as it was. *)
Theorem first_error_stops_batch pre bad post o ws err :
  mx o = false →
  writes_of (pricePrecision o) pre ws →
  update_error (pricePrecision o) bad = Some err →
  ∃ o', applyUpdates (pre ++ bad :: post) o = Returns (Some err) o' ∧
        m o' = apply_writes ws (m o) ∧
        sorted o' = sorted o.
Proof.
  intros Hmx Hws Hbad. rewrite applyUpdates_run.
  destruct (applyUpdates_loop_error pre bad post o ws err)
    as (o1 & -> & Hm & Hs); eauto.
Qed.

(** C7.  An update whose volume is zero deletes the canonical key of its
    price from the table; when the key is absent nothing changes and no
    error is returned.  [Get] on that price then returns the zero
    sentinel and [false]. *)
Theorem zero_volume_deletes upd o flValue price :
  mx o = false →
  Float64 (item_Volume upd) = Ok flValue →
  float64_eq_zero flValue = true →
  UnmarshalText (pricePrecision o) (item_Price upd) = Ok price →
  let key := stringFixed price (pricePrecision o) in
  ∃ o', applyUpdate upd o = Returns None o' ∧
        m o' = delete key (m o) ∧
        (m o !! key = None → o' = o) ∧
        Get price o' = Returns (New 0 0, false) o'.
Proof.
  intros Hmx Hvol Hzero Hprice key.
  exists (with_m (delete key (m o)) o).
  rewrite applyUpdate_run, Hvol, Hprice, Hmx, Hzero. simpl.
  split_and!; [done..| |].
  - intros Hkey. rewrite delete_id by done. apply with_m_id.
  - unfold Get, RLocked. simpl. rewrite Hmx.
    unfold mbind, Go_bind, self. simpl. fold key.
    by rewrite lookup_delete_eq.
Qed.

(** C8, as amended.  Take a batch that [applyUpdates] completes, with two
    updates of non-zero volume and the same canonical key, the later of
    which is the last update of the batch to that key.  Afterwards no
    two levels of [sorted] share a key, any level of [sorted] with that
    key is the one the later update stored, and the table holds that
    level under the key exactly when [sorted] holds it: when it fell
    beyond [depth] the key is absent. *)
Theorem later_update_wins front u1 u2 post key level1 level2 o o' :
  keyed o →
  u1 ∈ front →
  written (pricePrecision o) u1 = Some (key, Some level1) →
  written (pricePrecision o) u2 = Some (key, Some level2) →
  Forall (λ upd, ∀ w, written (pricePrecision o) upd = Some w → w.1 ≠ key) post →
  applyUpdates (front ++ u2 :: post) o = Returns None o' →
  NoDup (level_key (pricePrecision o) <$> sorted o') ∧
  (∀ level, level ∈ sorted o' →
     level_key (pricePrecision o) level = key → level = level2) ∧
  (m o' !! key = Some level2 ↔ level2 ∈ sorted o') ∧
  (m o' !! key = Some level2 ∨ m o' !! key = None).
Proof.
  intros Ho _ _ Hu2 Hpost (ws & Hws & _ & _ & ->)%applyUpdates_Returns_None.
  pose proof (keyed_table_apply_writes _ _ _ _ Hws Ho) as Ht.
  assert (apply_writes ws (m o) !! key = Some level2) as Hkey.
  { apply Forall2_app_inv_l in Hws as (ws1 & ws2' & _ & Hws2 & ->).
    apply Forall2_cons_inv_l in Hws2 as (w & ws2 & Hw & Hws2 & ->).
    rewrite apply_writes_lookup, (last_write_app key).
    - by simplify_eq.
    - by simplify_eq.
    - eapply Forall2_Forall_r; [exact Hws2|done]. }
  pose proof (Ht _ _ Hkey) as Hkey2.
  unfold resorted. simpl.
  assert (∀ level,
            level ∈ take (Z.to_nat (depth o))
                      (newOrderBookLevels (apply_writes ws (m o)) (isAsk o)) →
            level_key (pricePrecision o) level = key → level = level2) as Honly.
  { intros level Hlevel%elem_of_take Hk. destruct Hlevel as (i & Hi & _).
    apply list_elem_of_lookup_2 in Hi.
    rewrite newOrderBookLevels_Permutation in Hi.
    apply (elem_of_map_values_keyed (pricePrecision o)) in Hi; [|done].
    rewrite Hk in Hi. congruence. }
  split_and!; [|done| |].
  - eapply sublist_NoDup; [|apply fmap_sublist, sublist_take].
    rewrite newOrderBookLevels_Permutation. by apply NoDup_level_keys.
  - rewrite (kept_lookup (pricePrecision o) _ (isAsk o) _ key level2 Ht). tauto.
  - destruct (evicted _ _ _ !! key) as [level|] eqn:Hlookup; [|by right].
    left. f_equal.
    apply (kept_lookup (pricePrecision o) _ (isAsk o) _ key level Ht)
      in Hlookup as [? ?].
    by apply Honly.
Qed.

(** C9, as amended.  Idempotence, on a table without ties.  Take a keyed
    receiver and a batch whose updates all parse, such that, once the
    updates are written, no two keys of the table hold prices that
    compare equal.  Then applying the batch twice in succession ends as
    applying it once does, whatever the walks of the map in the three
    calls: the same outcome, the same receiver, hence the same [sorted],
    and [checksum] called afterwards yields the same bytes. *)
Theorem applyUpdates_twice first second once updates ws o :
  arranging first → arranging second → arranging once →
  keyed o →
  writes_of (pricePrecision o) updates ws →
  tie_free (apply_writes ws (m o)) →
  (applyUpdates_with first updates;; applyUpdates_with second updates) o
    = applyUpdates_with once updates o ∧
  sorted (receiver
            ((applyUpdates_with first updates;; applyUpdates_with second updates) o))
    = sorted (receiver (applyUpdates_with once updates o)) ∧
  (applyUpdates_with first updates;; applyUpdates_with second updates;; checksum) o
    = (applyUpdates_with once updates;; checksum) o.
Proof.
  intros Hfirst Hsecond Honce Ho Hws Hfree.
  assert (applyUpdates_with first updates o = applyUpdates_with once updates o)
    as Hsame.
  { destruct (mx o) eqn:Hmx.
    { rewrite !applyUpdates_with_blocked; eauto using writes_of_parses. }
    destruct (decide (0 ≤ depth o ≤ Z.of_nat (size (apply_writes ws (m o)))))
      as [Hd|Hd].
    - rewrite !(applyUpdates_with_success _ _ _ ws) by done.
      by rewrite (arranges_unique _ _ _ _ Hfree (Hfirst _ _) (Honce _ _)).
    - by rewrite !(applyUpdates_with_panic _ _ _ ws). }
  assert (parses (pricePrecision o) updates) as Hparses
    by by eapply writes_of_parses.
  assert ((applyUpdates_with first updates;; applyUpdates_with second updates) o
          = applyUpdates_with first updates o) as Htwice.
  { unfold mbind, Go_bind.
    destruct (applyUpdates_with first updates o) as [[err|] o1|o1|o1] eqn:Hrun;
      [|by eapply applyUpdates_with_again|done..].
    by destruct (applyUpdates_with_no_error first updates o err o1). }
  split_and!.
  - by rewrite Htwice.
  - by rewrite Htwice, Hsame.
  - unfold mbind, Go_bind. rewrite <- Hsame.
    destruct (applyUpdates_with first updates o) as [[err|] o1|o1|o1] eqn:Hrun;
      try done.
    + by destruct (applyUpdates_with_no_error first updates o err o1).
    + by rewrite (applyUpdates_with_again first second updates ws o o1).
Qed.

(** C4, as amended.  [checksum] appends, level after level of [sorted]
    and with nothing in between, the price and then the volume, each
    printed at its precision with the first decimal point removed and
    the leading zeros stripped.  A price printed as 0.00500 adds "500". *)
Theorem checksum_canonical o :
  mx o = false →
  checksum o =
    Returns
      (String.list_byte_of_string
         (foldr (λ level rest,
                   (checksum_field (pricePrecision o) (Price level) +:+
                    checksum_field (volumePrecision o) (Volume level)) +:+ rest)
            "" (sorted o)))
      o ∧
  (∀ big precision,
     stringFixed big precision = "0.00500" → checksum_field precision big = "500").
Proof.
  intros Hmx. split.
  - rewrite checksum_run by done. by rewrite checksum_loop_foldr.
  - intros big precision Hfixed. unfold checksum_field. by rewrite Hfixed.
Qed.

(** C10, as amended.  [applyUpdates] takes the write lock once for every
    update and once more for the resort, and releases it in between: its
    critical sections, run one after the other, are the batch.  A reader
    scheduled when [k] updates of the batch are done, and the resort is
    not, finds the lock free; [Range], [Best] and [checksum] answer as
    they did before the batch, from the [sorted] of before it, and [Get]
    answers from the table in which the first [k] updates are written. *)
Theorem reads_between_updates updates ws o k :
  mx o = false →
  writes_of (pricePrecision o) updates ws →
  (k ≤ length updates)%nat →
  let o_k := with_m (apply_writes (take k ws) (m o)) o in
  run_sections (sections updates) o = applyUpdates updates o ∧
  run_sections (take k (sections updates)) o = Returns None o_k ∧
  mx o_k = false ∧
  (∀ handler, ∃ a,
     Range handler o = Returns a o ∧
     read_after k updates (Range handler) o = Returns a o_k) ∧
  (∃ a, Best o = Returns a o ∧ read_after k updates Best o = Returns a o_k) ∧
  (∃ a, checksum o = Returns a o ∧
        read_after k updates checksum o = Returns a o_k) ∧
  (∀ price,
     read_after k updates (Get price) o =
       Returns match m o_k !! stringFixed price (pricePrecision o) with
               | None => (New 0 0, false)
               | Some level => (Volume level, true)
               end o_k).
Proof.
  intros Hmx Hws Hk o_k.
  assert (run_sections (take k (sections updates)) o = Returns None o_k) as Hrun.
  { rewrite take_sections, run_sections_Update by done.
    apply applyUpdates_loop_written; [done|]. by apply Forall2_take. }
  unfold read_after, mbind, Go_bind. rewrite Hrun.
  split_and!; try done.
  - apply run_sections_applyUpdates.
  - intros handler. eexists. by rewrite !Range_run.
  - eexists. by rewrite !Best_run.
  - eexists. by rewrite !checksum_run.
  - intros price. by rewrite Get_run.
Qed.
End specification.

(** * Further properties of the package *)

(** ** Helper facts *)

Section further_facts.
Context `{Externals}.

#[local] Existing Instance best_first_trans.
Lemma applyUpdate_no_panic upd o o1 : applyUpdate upd o ≠ Panics o1.
Proof.
  rewrite applyUpdate_run.
  destruct (Float64 _); [|done].
  destruct (UnmarshalText (pricePrecision o) _); [|done].
  destruct (mx o); [done|]. simpl.
  destruct (float64_eq_zero _); [done|].
  by destruct (UnmarshalText 0 _).
Qed.
Lemma applyUpdates_loop_no_panic updates o o1 :
  applyUpdates_loop updates o ≠ Panics o1.
Proof.
  revert o. induction updates as [|upd updates IH]; intros o; [done|].
  simpl. unfold mbind, Go_bind.
  destruct (applyUpdate upd o) as [[err|] o2|o2|o2] eqn:Hupd; [done|apply IH| |done].
  by destruct (applyUpdate_no_panic upd o o2).
Qed.
(** A receiver on which a batch went through is left as its own resort. *)
Lemma resorted_settled o :
  sorted o = newOrderBookLevels (m o) (isAsk o) →
  Z.of_nat (size (m o)) = depth o →
  resorted (m o) o = o.
Proof.
  intros Hsorted Hsize. unfold resorted.
  assert (length (newOrderBookLevels (m o) (isAsk o)) ≤ Z.to_nat (depth o))%nat
    as Hlen by (rewrite newOrderBookLevels_length; lia).
  rewrite take_ge, drop_ge by done. simpl.
  destruct o; simpl in *. by subst.
Qed.
(** A run of deletions that deletes [key]. *)
Lemma apply_deletes_lookup ws t key :
  Forall (λ w, w.2 = None) ws → key ∈ ws.*1 →
  apply_writes ws t !! key = None.
Proof.
  intros Hnone Hkey. rewrite apply_writes_lookup.
  induction ws as [|w ws IH] using rev_ind; [by apply elem_of_nil in Hkey|].
  apply Forall_app in Hnone as [Hnone Hw]. inversion Hw as [|? ? Hw2 _].
  unfold last_write. rewrite foldl_app. simpl.
  destruct (decide (w.1 = key)); [done|].
  apply IH; [done|].
  rewrite fmap_app in Hkey. apply elem_of_app in Hkey as [?|Hkey]; [done|].
  apply list_elem_of_singleton in Hkey. congruence.
Qed.
Lemma apply_deletes_subseteq ws t :
  Forall (λ w, w.2 = None) ws → apply_writes ws t ⊆ t.
Proof.
  intros Hnone.
  induction ws as [|w ws IH] using rev_ind; [done|].
  apply Forall_app in Hnone as [Hnone Hw]. inversion Hw as [|? ? Hw2 _].
  unfold apply_writes. rewrite foldl_app. simpl. unfold write at 1.
  rewrite Hw2. etrans; [apply delete_subseteq|]. by apply IH.
Qed.
(** The order of two levels, as a comparison of their prices. *)
Lemma best_first_Cmp asc x y :
  best_first asc x y ↔
    if asc then Cmp (Price x) (Price y) ≤ 0 else 0 ≤ Cmp (Price x) (Price y).
Proof.
  destruct asc; simpl; unfold flip, price_le; [done|].
  rewrite (Cmp_opp (Price x) (Price y)). lia.
Qed.

Lemma best_first_strict asc x y :
  best_first asc x y → Cmp (Price x) (Price y) ≠ 0 →
  Cmp (Price x) (Price y) = if asc then -1 else 1.
Proof.
  intros Hxy%best_first_Cmp Hne.
  destruct (Cmp_range (Price x) (Price y)) as [?|[?|?]]; destruct asc; lia.
Qed.

(** Two levels of an arrangement of a keyed table: the earlier is at
    least as good, and they sit under different keys. *)
Lemma arranged_pair pp t asc levels i j x y :
  keyed_table pp t → arranges t asc levels →
  (i < j)%nat → levels !! i = Some x → levels !! j = Some y →
  best_first asc x y ∧ level_key pp x ≠ level_key pp y.
Proof.
  intros Ht Hlevels Hij Hx Hy. split.
  - apply byPrice_order_best_first. by eapply (proj2 Hlevels).
  - intros Hkey.
    assert (NoDup (level_key pp <$> levels)) as Hnodup
      by (rewrite (proj1 Hlevels); by apply NoDup_level_keys).
    assert (i = j); [|lia].
    eapply NoDup_lookup; [exact Hnodup|..]; rewrite list_lookup_fmap.
    + by rewrite Hx.
    + by rewrite Hy, Hkey.
Qed.

(** In a table without ties they do not tie. *)
Lemma arranged_pair_strict pp t asc levels i j x y :
  keyed_table pp t → tie_free t → arranges t asc levels →
  (i < j)%nat → levels !! i = Some x → levels !! j = Some y →
  Cmp (Price x) (Price y) = if asc then -1 else 1.
Proof.
  intros Ht Hfree Hlevels Hij Hx Hy.
  destruct (arranged_pair pp t asc levels i j x y) as [Hxy Hkey]; [done..|].
  apply best_first_strict; [done|]. intros Hcmp. apply Hkey.
  assert (∀ l, l ∈ levels → t !! level_key pp l = Some l) as Hin.
  { intros l Hl. rewrite (proj1 Hlevels) in Hl.
    by apply (elem_of_map_values_keyed pp). }
  eapply Hfree; [| |exact Hcmp]; apply Hin; by eapply list_elem_of_lookup_2.
Qed.

End further_facts.

(** ** Batches *)

Section batches.
Context `{Externals}.

(** X1.  When every update of a batch parses and the lock is free,
    [applyUpdates] either completes or panics, and which of the two is
    decided by the slice expression [levels[o.depth:]] alone: it completes
    exactly when [0 <= depth <= len(levels)], where [levels] are the
    levels of the table once the updates are written.  When it panics
    the updates are written, [sorted] is untouched and the write lock is
    held. *)
Theorem applyUpdates_completes_iff updates o :
  mx o = false →
  parses (pricePrecision o) updates →
  ∃ ws, writes_of (pricePrecision o) updates ws ∧
    let t := apply_writes ws (m o) in
    (0 ≤ depth o ≤ Z.of_nat (size t) ↔
       applyUpdates updates o = Returns None (resorted t o)) ∧
    (¬ (0 ≤ depth o ≤ Z.of_nat (size t)) ↔
       applyUpdates updates o = Panics (with_mx true (with_m t o))).
Proof.
  intros Hmx [ws Hws]%parses_writes_of. exists ws. split; [done|]. simpl.
  destruct (decide (0 ≤ depth o ≤ Z.of_nat (size (apply_writes ws (m o)))))
    as [Hd|Hd].
  - rewrite (applyUpdates_success updates o ws) by done. split; [done|].
    split; [done|discriminate].
  - rewrite (applyUpdates_panic updates o ws) by done. split; [|done].
    split; [done|discriminate].
Qed.

(** X2.  After a batch that [applyUpdates] completed on a keyed receiver,
    whatever the walk of the map, the table and the view are in step:
    the table is keyed, the lock is free, [sorted] holds the levels of
    the table, each once and best first, and the table and [sorted] both
    hold exactly [depth] levels. *)
Theorem batch_settles levels_of updates o o' :
  arranging levels_of →
  keyed o →
  applyUpdates_with levels_of updates o = Returns None o' →
  keyed o' ∧ mx o' = false ∧
  arranges (m o') (isAsk o') (sorted o') ∧
  Z.of_nat (size (m o')) = depth o' ∧
  Z.of_nat (length (sorted o')) = depth o'.
Proof. apply applyUpdates_with_settled. Qed.

(** X3.  When [applyUpdates] panics, it panics on the slice expression:
    the write lock is held for good, [sorted] is as it was, every reader
    called afterwards blocks, and so does every later batch whose updates
    parse (the empty batch included). *)
Theorem panic_keeps_the_lock updates o o' :
  applyUpdates updates o = Panics o' →
  mx o' = true ∧
  sorted o' = sorted o ∧
  ¬ (0 ≤ depth o ≤ Z.of_nat (size (m o'))) ∧
  (∀ price, Get price o' = Blocks o') ∧
  (∀ handler, Range handler o' = Blocks o') ∧
  Best o' = Blocks o' ∧
  checksum o' = Blocks o' ∧
  (∀ updates', parses (pricePrecision o') updates' →
     applyUpdates updates' o' = Blocks o').
Proof.
  rewrite applyUpdates_run.
  destruct (applyUpdates_loop updates o) as [[err|] o1|o1|o1] eqn:Hloop;
    [done| | |done].
  - apply applyUpdates_loop_Returns_None in Hloop as (ws & Hws & ->). simpl.
    destruct (mx o) eqn:Hmx; [done|]. unfold resort. simpl.
    destruct (_ && _) eqn:Hd; [done|]. intros [= <-]. simpl.
    split_and!; try done.
    + intros Hd'. apply andb_false_iff in Hd as [Hd|Hd]; lia.
    + intros updates' Hparses. by apply applyUpdates_blocked.
  - by destruct (applyUpdates_loop_no_panic updates o o1).
Qed.

(** X4.  After a completed batch, whatever the walks of the map: the
    empty batch completes and leaves the table as it is and the same
    levels in [sorted], in the same order when the table has no ties;
    while a batch that only deletes, and deletes a level that is there,
    panics: the table is left with fewer than [depth] levels. *)
Theorem deleting_batch_panics first updates o o' :
  arranging first →
  keyed o →
  applyUpdates_with first updates o = Returns None o' →
  (∀ empty, arranging empty →
     ∃ o1, applyUpdates_with empty [] o' = Returns None o1 ∧
           m o1 = m o' ∧ sorted o1 ≡ₚ sorted o' ∧
           (tie_free (m o') → o1 = o')) ∧
  (∀ last deletes ws key,
     arranging last →
     writes_of (pricePrecision o') deletes ws →
     Forall (λ w, w.2 = None) ws →
     key ∈ ws.*1 →
     is_Some (m o' !! key) →
     ∃ o'', applyUpdates_with last deletes o' = Panics o'' ∧
            m o'' = apply_writes ws (m o') ∧
            m o'' !! key = None).
Proof.
  intros Hfirst Ho Hbatch.
  destruct (applyUpdates_with_settled first updates o o' Hfirst Ho Hbatch)
    as (Ho' & Hmx & Hsorted & Hsize & _).
  split.
  - intros empty Hempty.
    pose proof (Hempty (m o') (isAsk o')) as HL.
    assert (length (empty (m o') (isAsk o')) ≤ Z.to_nat (depth o'))%nat as Hlen
      by (rewrite (arranges_length _ _ _ HL); lia).
    exists (with_sorted (empty (m o') (isAsk o')) o').
    rewrite (applyUpdates_with_success empty [] o' []);
      [|done|done|constructor|simpl; lia].
    unfold resorted_as. simpl. rewrite take_ge, drop_ge by done. simpl.
    rewrite with_m_id. split_and!; [done..| |].
    + simpl. by rewrite (proj1 HL), (proj1 Hsorted).
    + intros Hfree.
      rewrite (arranges_unique _ _ _ _ Hfree HL Hsorted). by destruct o'.
  - intros last deletes ws key Hlast Hws Hnone Hkey Hthere.
    exists (with_mx true (with_m (apply_writes ws (m o')) o')).
    pose proof (apply_deletes_lookup ws (m o') key Hnone Hkey) as Hgone.
    pose proof (apply_deletes_subseteq ws (m o') Hnone) as Hsub.
    split_and!; [|done..].
    apply applyUpdates_with_panic; [done..|].
    assert (size (apply_writes ws (m o')) < size (m o'))%nat; [|lia].
    apply map_subset_size. split; [done|].
    intros Hsup. destruct Hthere as [level Hlevel].
    pose proof (lookup_weaken _ _ _ _ Hlevel Hsup). congruence.
Qed.

End batches.

(** ** The order of the view *)

Section order.
Context `{Externals}.

#[local] Existing Instance best_first_trans.

(** X5.  After a completed batch on a keyed receiver, whatever the walk
    of the map, [sorted] is best first throughout: of any two of its
    levels, neighbours or not, the earlier has the lower or equal price
    on the ask side, the higher or equal price on the bid side, and the
    two have different keys.  Their prices can compare equal; they do
    not when no two keys of the table hold prices that compare equal. *)
Theorem sorted_orders_every_pair levels_of updates o o' i j x y :
  arranging levels_of →
  keyed o →
  applyUpdates_with levels_of updates o = Returns None o' →
  (i < j)%nat →
  sorted o' !! i = Some x →
  sorted o' !! j = Some y →
  (if isAsk o' then Cmp (Price x) (Price y) ≤ 0
   else 0 ≤ Cmp (Price x) (Price y)) ∧
  level_key (pricePrecision o') x ≠ level_key (pricePrecision o') y ∧
  (tie_free (m o') →
   Cmp (Price x) (Price y) = if isAsk o' then -1 else 1).
Proof.
  intros Harr Ho Hbatch Hij Hx Hy.
  destruct (applyUpdates_with_settled levels_of updates o o' Harr Ho Hbatch)
    as (Ho' & _ & Hsorted & _).
  destruct (arranged_pair (pricePrecision o') (m o') (isAsk o') (sorted o')
              i j x y) as [Hxy Hkey]; [done..|].
  split_and!; [by apply best_first_Cmp|done|].
  intros Hfree. by eapply arranged_pair_strict.
Qed.

(** X6.  The levels a batch evicts are the worst ones: every level that
    stays in [sorted] has a price at least as good as that of every level
    that the updates had put in the table and that is not in [sorted],
    and a strictly better one when that table has no ties. *)
Theorem kept_levels_beat_evicted levels_of updates o o' ws kept key level :
  arranging levels_of →
  keyed o →
  applyUpdates_with levels_of updates o = Returns None o' →
  writes_of (pricePrecision o) updates ws →
  kept ∈ sorted o' →
  apply_writes ws (m o) !! key = Some level →
  level ∉ sorted o' →
  (if isAsk o' then Cmp (Price kept) (Price level) ≤ 0
   else 0 ≤ Cmp (Price kept) (Price level)) ∧
  (tie_free (apply_writes ws (m o)) →
   Cmp (Price kept) (Price level) = if isAsk o' then -1 else 1).
Proof.
  intros Harr Ho (ws' & Hws' & _ & _ & ->)%applyUpdates_with_Returns_None Hws;
    [|done].
  assert (ws' = ws) as -> by eauto using writes_of_inj.
  pose proof (keyed_table_apply_writes _ _ _ _ Hws Ho) as Ht.
  pose proof (Harr (apply_writes ws (m o)) (isAsk o)) as HL.
  unfold resorted_as. simpl. intros Hkept Hlevel Hout.
  assert (level ∈ drop (Z.to_nat (depth o))
                    (levels_of (apply_writes ws (m o)) (isAsk o))) as Hbeyond.
  { assert (level ∈ levels_of (apply_writes ws (m o)) (isAsk o)) as Hin
      by (apply (arranges_elem_of _ _ _ _ HL); eauto).
    rewrite <- (take_drop (Z.to_nat (depth o))) in Hin.
    apply elem_of_app in Hin as [?|?]; done. }
  apply elem_of_take in Hkept as (i & Hi & Hid).
  apply list_elem_of_lookup in Hbeyond as (j & Hj). rewrite lookup_drop in Hj.
  assert (i < Z.to_nat (depth o) + j)%nat as Hij by lia.
  split.
  - apply best_first_Cmp.
    by destruct (arranged_pair _ _ _ _ _ _ _ _ Ht HL Hij Hi Hj).
  - intros Hfree. by eapply arranged_pair_strict.
Qed.

(** X7.  After a completed batch on a keyed receiver of positive depth,
    whatever the walk of the map, [Best] returns a level of the table,
    and no level that the updates had left in the table has a better
    price.  On a receiver of depth 0 it returns the zero sentinel. *)
Theorem Best_is_the_best_level levels_of updates o o' ws :
  arranging levels_of →
  keyed o →
  applyUpdates_with levels_of updates o = Returns None o' →
  writes_of (pricePrecision o) updates ws →
  (depth o = 0 → Best o' = Returns (New 0 0, New 0 0) o') ∧
  (0 < depth o →
   ∃ best, Best o' = Returns (Price best, Volume best) o' ∧
     m o' !! level_key (pricePrecision o') best = Some best ∧
     ∀ key level, apply_writes ws (m o) !! key = Some level →
       if isAsk o' then Cmp (Price best) (Price level) ≤ 0
       else 0 ≤ Cmp (Price best) (Price level)).
Proof.
  intros Harr Ho (ws' & Hws' & Hmx & Hd & ->)%applyUpdates_with_Returns_None Hws;
    [|done].
  assert (ws' = ws) as -> by eauto using writes_of_inj.
  pose proof (keyed_table_apply_writes _ _ _ _ Hws Ho) as Ht.
  pose proof (Harr (apply_writes ws (m o)) (isAsk o)) as HL.
  split.
  - intros Hzero. rewrite Best_run by done. unfold resorted_as. simpl.
    by rewrite Hzero.
  - intros Hpos. rewrite Best_run by done. unfold resorted_as. simpl.
    pose proof (arranges_sorted _ _ _ HL) as Hsorted.
    pose proof (arranges_length _ _ _ HL) as Hlen.
    pose proof (λ key level,
                  kept_lookup_in (pricePrecision o) (apply_writes ws (m o))
                    (levels_of (apply_writes ws (m o)) (isAsk o))
                    (Z.to_nat (depth o)) key level Ht (proj1 HL)) as Hkept.
    pose proof (λ level, arranges_elem_of _ _ _ level HL) as Hin.
    destruct (levels_of (apply_writes ws (m o)) (isAsk o))
      as [|best rest]; [simpl in Hlen; lia|].
    destruct (Z.to_nat (depth o)) as [|d] eqn:Hdepth; [lia|]. simpl in *.
    exists best. split_and!; [done| |].
    + apply Hkept. split; [by left|done].
    + intros key level Hlevel. apply best_first_Cmp.
      assert (level ∈ best :: rest) as Hlevel' by (apply Hin; eauto).
      apply elem_of_cons in Hlevel' as [->|Hrest].
      * apply best_first_Cmp. pose proof (Cmp_opp (Price best) (Price best)).
        destruct (isAsk o); lia.
      * apply StronglySorted_cons in Hsorted as [Hall _].
        rewrite Forall_forall in Hall. by apply Hall.
Qed.

(** X8.  After a completed batch on a keyed receiver, whatever the walk
    of the map, [Get] answers from [sorted]: it finds a level exactly
    when [sorted] holds one whose price prints as the given price does
    at the price precision, and then returns what that level stores as
    its volume; otherwise it returns the zero sentinel and [false]. *)
Theorem Get_answers_from_sorted levels_of updates o o' price :
  arranging levels_of →
  keyed o →
  applyUpdates_with levels_of updates o = Returns None o' →
  (∀ level, level ∈ sorted o' →
     stringFixed (Price level) (pricePrecision o')
       = stringFixed price (pricePrecision o') →
     Get price o' = Returns (Volume level, true) o') ∧
  ((∀ level, level ∈ sorted o' →
      stringFixed (Price level) (pricePrecision o')
        ≠ stringFixed price (pricePrecision o')) →
   Get price o' = Returns (New 0 0, false) o').
Proof.
  intros Harr Ho Hbatch.
  destruct (applyUpdates_with_settled levels_of updates o o' Harr Ho Hbatch)
    as (Ho' & Hmx & Hsorted & _).
  assert (∀ level, level ∈ sorted o' ↔
                   m o' !! level_key (pricePrecision o') level = Some level)
    as Hin.
  { intros level. rewrite (proj1 Hsorted).
    by apply elem_of_map_values_keyed. }
  split.
  - intros level Hlevel%Hin Hkey. rewrite Get_run by done.
    unfold level_key in Hlevel. rewrite Hkey in Hlevel. by rewrite Hlevel.
  - intros Hnone. rewrite Get_run by done.
    destruct (m o' !! _) as [level|] eqn:Hlookup; [|done].
    pose proof (Ho' _ _ Hlookup) as Hkey. rewrite Hkey in Hlookup.
    apply Hin in Hlookup. by destruct (Hnone level Hlookup).
Qed.

End order.

(** ** The order of the updates in a batch *)

Section batch_order.
Context `{Externals}.

Lemma writes_of_Permutation pp updates updates' ws :
  updates ≡ₚ updates' → writes_of pp updates ws →
  ∃ ws', writes_of pp updates' ws' ∧ ws ≡ₚ ws'.
Proof.
  intros Hperm. revert ws.
  induction Hperm as [|upd l l' _ IH|upd1 upd2 l|l l' l'' _ IH1 _ IH2]; intros ws Hws.
  - exists ws. by split.
  - apply Forall2_cons_inv_l in Hws as (w & ws1 & Hw & Hws1 & ->).
    destruct (IH ws1 Hws1) as (ws1' & ? & ?).
    exists (w :: ws1'). split; [by constructor|by constructor].
  - apply Forall2_cons_inv_l in Hws as (w2 & ws1 & Hw2 & Hws1 & ->).
    apply Forall2_cons_inv_l in Hws1 as (w1 & ws2 & Hw1 & Hws2 & ->).
    exists (w1 :: w2 :: ws2). split; [by repeat constructor|apply perm_swap].
  - destruct (IH1 ws Hws) as (ws' & Hws' & ?).
    destruct (IH2 ws' Hws') as (ws'' & ? & ?).
    exists ws''. split; [done|by etrans].
Qed.

Lemma last_write_elem_of key binding ws :
  NoDup ws.*1 → (key, binding) ∈ ws → last_write key ws = Some binding.
Proof.
  intros Hnodup (ws1 & ws2 & ->)%list_elem_of_split.
  apply (last_write_app key ws1 (key, binding) ws2); [done|].
  rewrite fmap_app, fmap_cons in Hnodup.
  apply NoDup_app in Hnodup as (_ & _ & Hnodup).
  apply NoDup_cons in Hnodup as [Hnotin _].
  apply Forall_forall. intros w Hw Hkey. apply Hnotin. simpl.
  rewrite <- Hkey. by apply list_elem_of_fmap_2.
Qed.

Lemma last_write_not_elem_of key ws :
  key ∉ ws.*1 → last_write key ws = None.
Proof.
  induction ws as [|w ws IH] using rev_ind; [done|].
  rewrite fmap_app. intros Hnotin.
  unfold last_write. rewrite foldl_app. simpl.
  rewrite decide_False.
  - apply IH. intros ?. apply Hnotin, elem_of_app. by left.
  - intros Hkey. apply Hnotin, elem_of_app. right. simpl.
    rewrite Hkey. by left.
Qed.

Lemma apply_writes_Permutation ws ws' t :
  NoDup ws.*1 → ws ≡ₚ ws' → apply_writes ws' t = apply_writes ws t.
Proof.
  intros Hnodup Hperm. apply map_eq. intros key.
  rewrite !apply_writes_lookup.
  assert (NoDup ws'.*1) as Hnodup' by by rewrite <- Hperm.
  destruct (decide (key ∈ ws.*1)) as [Hin|Hnotin].
  - apply list_elem_of_fmap in Hin as ([key' binding] & -> & Hw). simpl.
    rewrite (last_write_elem_of key' binding ws) by done.
    rewrite (last_write_elem_of key' binding ws'); [done..|].
    by rewrite <- Hperm.
  - rewrite (last_write_not_elem_of key ws) by done.
    rewrite (last_write_not_elem_of key ws'); [done|].
    by rewrite <- Hperm.
Qed.

(** X9.  When the updates of a batch all parse and write to pairwise
    different keys, and the table they leave has no ties, their order in
    the batch is irrelevant: every rearrangement of the batch ends in the
    same way and leaves the same receiver, whatever the walks of the
    map. *)
Theorem batch_order_is_irrelevant levels_of levels_of' updates updates' ws o :
  arranging levels_of → arranging levels_of' →
  writes_of (pricePrecision o) updates ws →
  NoDup ws.*1 →
  updates ≡ₚ updates' →
  tie_free (apply_writes ws (m o)) →
  applyUpdates_with levels_of' updates' o = applyUpdates_with levels_of updates o.
Proof.
  intros Harr Harr' Hws Hnodup Hperm Hfree.
  destruct (writes_of_Permutation _ _ _ _ Hperm Hws) as (ws' & Hws' & Hperm').
  destruct (mx o) eqn:Hmx.
  - rewrite !applyUpdates_with_blocked; eauto using writes_of_parses.
  - pose proof (apply_writes_Permutation ws ws' (m o) Hnodup Hperm') as Heq.
    destruct (decide (0 ≤ depth o ≤ Z.of_nat (size (apply_writes ws (m o)))))
      as [Hd|Hd].
    + rewrite (applyUpdates_with_success _ updates o ws) by done.
      rewrite (applyUpdates_with_success _ updates' o ws'), Heq;
        [|done..|by rewrite Heq].
      by rewrite (arranges_unique _ _ _ _ Hfree (Harr _ _) (Harr' _ _)).
    + rewrite (applyUpdates_with_panic _ updates o ws) by done.
      rewrite (applyUpdates_with_panic _ updates' o ws'), Heq; [done..|].
      by rewrite Heq.
Qed.

End batch_order.

(** ** One update *)

Section one_update.
Context `{Externals}.

(** X10.  How a call of [applyUpdate] can end.  It never panics.  It
    blocks exactly when the volume and the price parse and the write
    lock is held.  It returns [nil] exactly when the lock is free and
    the update parses, and then the lock is free again.  However it
    ends, it leaves [sorted], [depth], the precisions and the side of
    the receiver as they were. *)
Theorem applyUpdate_outcomes upd o :
  (∀ o', applyUpdate upd o ≠ Panics o') ∧
  ((∃ o', applyUpdate upd o = Blocks o') ↔
     mx o = true ∧
     (∃ flValue, Float64 (item_Volume upd) = Ok flValue) ∧
     (∃ price, UnmarshalText (pricePrecision o) (item_Price upd) = Ok price)) ∧
  ((∃ o', applyUpdate upd o = Returns None o') ↔
     mx o = false ∧ is_Some (written (pricePrecision o) upd)) ∧
  (∀ o', applyUpdate upd o = Returns None o' → mx o' = false) ∧
  sorted (receiver (applyUpdate upd o)) = sorted o ∧
  depth (receiver (applyUpdate upd o)) = depth o ∧
  pricePrecision (receiver (applyUpdate upd o)) = pricePrecision o ∧
  volumePrecision (receiver (applyUpdate upd o)) = volumePrecision o ∧
  isAsk (receiver (applyUpdate upd o)) = isAsk o.
Proof.
  split; [apply applyUpdate_no_panic|].
  unfold written. rewrite applyUpdate_run.
  destruct (Float64 (item_Volume upd)) as [flValue|err].
  2:{ split_and!; try done.
      - split; [by intros [? ?]|by intros (_ & [? ?] & _)].
      - split; [by intros [? ?]|by intros (_ & [? ?])]. }
  destruct (UnmarshalText (pricePrecision o) (item_Price upd)) as [price|err].
  2:{ split_and!; try done.
      - split; [by intros [? ?]|by intros (_ & _ & [? ?])].
      - split; [by intros [? ?]|by intros (_ & [? ?])]. }
  destruct (mx o) eqn:Hmx.
  { split_and!; try done.
    - split; [eauto|]. intros _. by eexists.
    - split; [by intros [? ?]|by intros [? _]]. }
  simpl. destruct (float64_eq_zero flValue).
  { split_and!; try done.
    - split; [by intros [? ?]|by intros [? _]].
    - split; [eauto|]. intros _. by eexists.
    - by intros o' [= <-]. }
  destruct (UnmarshalText 0 (item_Price upd)) as [v|err].
  - split_and!; try done.
    + split; [by intros [? ?]|by intros [? _]].
    + split; [eauto|]. intros _. by eexists.
    + by intros o' [= <-].
  - split_and!; try done.
    + split; [by intros [? ?]|by intros [? _]].
    + split; [by intros [? ?]|by intros (_ & [? ?])].
Qed.

(** X11.  An update that [applyUpdate] accepts touches one key of the
    table, the canonical key of its price: the key is bound to the new
    level (or unbound, for a zero volume), every other key is bound as
    before, and [Get] on a price with another key answers as before. *)
Theorem applyUpdate_writes_one_key upd o o' :
  applyUpdate upd o = Returns None o' →
  ∃ key binding,
    written (pricePrecision o) upd = Some (key, binding) ∧
    m o' !! key = binding ∧
    (∀ key', key' ≠ key → m o' !! key' = m o !! key') ∧
    (∀ price, stringFixed price (pricePrecision o) ≠ key →
       returned (Get price o') = returned (Get price o)).
Proof.
  intros (Hmx & [key binding] & Hw & ->)%applyUpdate_Returns_None.
  exists key, binding. simpl. split_and!.
  - done.
  - rewrite write_lookup. simpl. by rewrite decide_True.
  - intros key' Hne. rewrite write_lookup. simpl. by rewrite decide_False.
  - intros price Hne. rewrite !Get_run by done. simpl.
    rewrite write_lookup. simpl. by rewrite decide_False.
Qed.

End one_update.

(** ** Walking the view *)

Section walking.
Context `{Externals}.

(** X12.  [Range] calls the handler on the levels of [sorted] in order
    and stops at the first error: it returns [nil] exactly when the
    handler accepts every level, and otherwise the error of the first
    level the handler rejects, whatever the handler would say of the
    levels after it. *)
Theorem Range_returns_the_first_error handler o :
  mx o = false →
  ∃ r, Range handler o = Returns r o ∧
    (r = None ↔
       ∀ level, level ∈ sorted o → handler (Price level) (Volume level) = None) ∧
    (∀ err, r = Some err ↔
       ∃ before level after,
         sorted o = before ++ level :: after ∧
         (∀ level', level' ∈ before →
            handler (Price level') (Volume level') = None) ∧
         handler (Price level) (Volume level) = Some err).
Proof.
  intros Hmx. exists (Range_loop handler (sorted o)).
  split; [by apply Range_run|].
  generalize (sorted o) as levels. clear Hmx.
  induction levels as [|level levels [IHnone IHerr]]; simpl.
  - split.
    + split; [|done]. by intros _ level ?%elem_of_nil.
    + intros err. split; [done|]. by intros ([|??] & ? & ? & ? & _).
  - destruct (handler (Price level) (Volume level)) as [err|] eqn:Hlevel.
    + split.
      * split; [done|]. intros Hall. rewrite Hall in Hlevel; [done|by left].
      * intros err'. split.
        -- intros [= <-]. exists [], level, levels. split_and!; [done| |done].
           by intros level' ?%elem_of_nil.
        -- intros ([|level0 before] & level' & after & Heq & Hbefore & Herr);
             simplify_eq/=; [congruence|].
           rewrite Hbefore in Hlevel; [done|by left].
    + split.
      * rewrite IHnone. split.
        -- intros Hall level' [->|?]%elem_of_cons; eauto.
        -- intros Hall level' ?. apply Hall. by right.
      * intros err. rewrite IHerr. split.
        -- intros (before & level' & after & -> & Hbefore & Herr).
           exists (level :: before), level', after. split_and!; [done| |done].
           intros level'' [->|?]%elem_of_cons; eauto.
        -- intros ([|level0 before] & level' & after & Heq & Hbefore & Herr);
             simplify_eq/=; try congruence.
           exists before, level', after. split_and!; [done| |done].
           intros level'' ?. apply Hbefore. by right.
Qed.

End walking.

(** ** Sorting the table *)

Section sorting_the_table.
Context `{Externals}.

#[local] Existing Instance best_first_trans.

(** X13.  [newOrderBookLevels] returns the levels of the table, each
    once for every key it is stored under, in price order: ascending
    when [asc] is set, descending otherwise. *)
Theorem newOrderBookLevels_sorts t asc :
  newOrderBookLevels t asc ≡ₚ map_values t ∧
  length (newOrderBookLevels t asc) = size t ∧
  (∀ level, level ∈ newOrderBookLevels t asc ↔ ∃ key, t !! key = Some level) ∧
  (∀ i j x y, (i < j)%nat →
     newOrderBookLevels t asc !! i = Some x →
     newOrderBookLevels t asc !! j = Some y →
     if asc then Cmp (Price x) (Price y) ≤ 0 else 0 ≤ Cmp (Price x) (Price y)).
Proof.
  split_and!.
  - apply newOrderBookLevels_Permutation.
  - apply newOrderBookLevels_length.
  - intros level. rewrite newOrderBookLevels_Permutation.
    apply elem_of_map_values.
  - intros i j x y Hij Hx Hy.
    pose proof (StronglySorted_lookup_lt _ _ _ _ _ _
                  (newOrderBookLevels_sorted t asc) Hij Hx Hy) as Hxy.
    destruct asc; simpl in Hxy; [done|].
    unfold flip, price_le in Hxy. rewrite Cmp_opp in Hxy. lia.
Qed.

(** X14.  On a table in which no two keys hold prices that compare
    equal, the result of [newOrderBookLevels] depends neither on the
    order in which Go walks the map nor on the algorithm of [sort.Sort]:
    every arrangement of the levels of the table in which no later level
    is [Less] than an earlier one, which is what [sort.Sort] guarantees,
    is the list [newOrderBookLevels] returns. *)
Theorem newOrderBookLevels_is_the_sorted_table t (asc : bool)
    (levels : list orderBookLevel) :
  tie_free t →
  levels ≡ₚ map_values t →
  (∀ (i j : nat) (x y : orderBookLevel),
     (i < j)%nat → levels !! i = Some x → levels !! j = Some y →
     (if asc then byPrice_Less else sort_Reverse byPrice_Less) y x = false) →
  levels = newOrderBookLevels t asc.
Proof.
  intros Hfree Hperm Hsorted.
  apply (arranges_unique t asc); [done|by split|].
  apply newOrderBookLevels_arranging.
Qed.

End sorting_the_table.

(** ** The text of a number in the checksum *)

Section checksum_text.
Context `{Externals}.

Lemma Replace_first_point (a b : string) :
  string_mem "."%char a = false →
  Replace (a +:+ String "."%char b) "." "" 1 = a +:+ b.
Proof.
  intros Ha. unfold Replace.
  change (if 1 <? 0 then _ else Z.to_nat 1) with 1%nat.
  induction a as [|c a IH].
  - by destruct b.
  - simpl in Ha. destruct (decide ("."%char = c)) as [|Hc]; [done|].
    rewrite !string_app_cons. cbn [Replace_go].
    assert (String.prefix "." (String c (a +:+ String "." b)) = false) as ->.
    { cbn [String.prefix]. by destruct (ascii_dec "." c). }
    f_equal. by apply IH.
Qed.

Lemma TrimLeft_head s cutset c rest :
  TrimLeft s cutset = String c rest → string_mem c cutset = false.
Proof.
  induction s as [|d s IH]; simpl; [done|].
  destruct (string_mem d cutset) eqn:Hd; [done|]. by intros [= -> _].
Qed.

(** X15.  What a number adds to the checksum buffer never begins with
    the digit 0, whatever its text; and when its text at the given
    precision is [a.b], with no point in [a], it adds the digits [ab]
    without their leading zeros. *)
Theorem checksum_field_digits precision big :
  (∀ rest, checksum_field precision big ≠ String "0"%char rest) ∧
  (∀ a b,
     stringFixed big precision = a +:+ String "."%char b →
     string_mem "."%char a = false →
     checksum_field precision big = TrimLeft (a +:+ b) "0").
Proof.
  unfold checksum_field. split.
  - intros rest Hrest. by apply TrimLeft_head in Hrest.
  - intros a b Htext Ha. by rewrite Htext, Replace_first_point.
Qed.

End checksum_text.

(** ** The rendering *)

Section rendering_facts.
Context `{Externals}.

Lemma string_app_nil_l (s : string) : "" +:+ s = s.
Proof. done. Qed.

Lemma String_level_line Big_String pp vp level str :
  String_level Big_String pp vp level str
    = str +:+ rendered_line Big_String pp vp level.
Proof.
  unfold String_level, rendered_line.
  destruct (0 <? pp), (0 <? vp); by rewrite !string_app_assoc.
Qed.

Lemma String_loop_foldr Big_String pp vp levels str :
  String_loop Big_String pp vp levels str =
    str +:+ foldr (λ level rest, rendered_line Big_String pp vp level +:+ rest)
              "" levels.
Proof.
  revert str. induction levels as [|level levels IH]; intros str; simpl.
  - by rewrite string_app_nil_r.
  - by rewrite IH, String_level_line, string_app_assoc.
Qed.

(** X16.  [String] renders [sorted] level after level, best first, one
    line for each: a tab, the price, the volume between square brackets,
    and a carriage return and line feed.  A number is printed at its
    precision when the precision is positive and as [Big.String] prints
    it otherwise, so with positive precisions the price of a line is the
    key of its level and the rendering does not depend on [Big.String]. *)
Theorem String_renders_sorted Big_String o :
  mx o = false →
  OrderBookSide_String Big_String o =
    Returns
      (foldr (λ level rest,
                rendered_line Big_String (pricePrecision o) (volumePrecision o)
                  level +:+ rest)
         "" (sorted o))
      o ∧
  (0 < pricePrecision o → 0 < volumePrecision o →
   (∀ level,
      rendered_line Big_String (pricePrecision o) (volumePrecision o) level =
        tab +:+ level_key (pricePrecision o) level +:+ " [ " +:+
        stringFixed (Volume level) (volumePrecision o) +:+ " ]" +:+ crlf) ∧
   ∀ other, OrderBookSide_String other o = OrderBookSide_String Big_String o).
Proof.
  intros Hmx.
  assert (∀ f, OrderBookSide_String f o =
               Returns
                 (foldr (λ level rest,
                           rendered_line f (pricePrecision o) (volumePrecision o)
                             level +:+ rest)
                    "" (sorted o)) o) as Hrun.
  { intros f. rewrite <- (string_app_nil_l (foldr _ _ _)).
    rewrite <- String_loop_foldr.
    unfold OrderBookSide_String, RLocked. by rewrite Hmx. }
  split; [apply Hrun|].
  intros Hpp Hvp.
  assert (∀ f level,
            rendered_line f (pricePrecision o) (volumePrecision o) level =
              tab +:+ level_key (pricePrecision o) level +:+ " [ " +:+
              stringFixed (Volume level) (volumePrecision o) +:+ " ]" +:+ crlf)
    as Hline.
  { intros f level. unfold rendered_line, level_key.
    by rewrite (proj2 (Z.ltb_lt 0 _) Hpp), (proj2 (Z.ltb_lt 0 _) Hvp). }
  split; [intros level; apply Hline|].
  intros other. rewrite !Hrun. f_equal. clear Hrun.
  induction (sorted o) as [|level levels IH]; simpl; [done|].
  by rewrite IH, !Hline.
Qed.

End rendering_facts.

(** ** A new side, and every side a program can hold *)

Section sides.
Context `{Externals}.

Lemma applyUpdate_frame upd o :
  sorted (receiver (applyUpdate upd o)) = sorted o ∧
  depth (receiver (applyUpdate upd o)) = depth o ∧
  pricePrecision (receiver (applyUpdate upd o)) = pricePrecision o ∧
  volumePrecision (receiver (applyUpdate upd o)) = volumePrecision o ∧
  isAsk (receiver (applyUpdate upd o)) = isAsk o.
Proof.
  rewrite applyUpdate_run.
  destruct (Float64 _); [|done].
  destruct (UnmarshalText (pricePrecision o) _); [|done].
  destruct (mx o); [done|]. simpl.
  destruct (float64_eq_zero _); [done|].
  by destruct (UnmarshalText 0 _).
Qed.

Lemma applyUpdates_loop_frame updates o :
  sorted (receiver (applyUpdates_loop updates o)) = sorted o ∧
  depth (receiver (applyUpdates_loop updates o)) = depth o ∧
  pricePrecision (receiver (applyUpdates_loop updates o)) = pricePrecision o ∧
  volumePrecision (receiver (applyUpdates_loop updates o)) = volumePrecision o ∧
  isAsk (receiver (applyUpdates_loop updates o)) = isAsk o.
Proof.
  revert o. induction updates as [|upd updates IH]; intros o; [done|].
  simpl. unfold mbind, Go_bind.
  pose proof (applyUpdate_frame upd o) as Hupd.
  destruct (applyUpdate upd o) as [[err|] o1|o1|o1]; try done.
  simpl in Hupd. destruct Hupd as (<- & <- & <- & <- & <-). apply IH.
Qed.

Lemma applyUpdates_frame updates o :
  depth (receiver (applyUpdates updates o)) = depth o ∧
  pricePrecision (receiver (applyUpdates updates o)) = pricePrecision o ∧
  volumePrecision (receiver (applyUpdates updates o)) = volumePrecision o ∧
  isAsk (receiver (applyUpdates updates o)) = isAsk o ∧
  ((∀ o', applyUpdates updates o ≠ Returns None o') →
   sorted (receiver (applyUpdates updates o)) = sorted o).
Proof.
  rewrite applyUpdates_run.
  pose proof (applyUpdates_loop_frame updates o) as Hloop.
  destruct (applyUpdates_loop updates o) as [[err|] o1|o1|o1];
    simpl in Hloop; destruct Hloop as (Hs & Hd & Hpp & Hvp & Hask);
    [done| |done..].
  destruct (mx o1); [done|]. unfold resort.
  destruct (_ && _); simpl; [|done].
  split_and!; [done..|]. intros Hnot. by destruct (Hnot (resorted (m o1) o1)).
Qed.

Lemma applyUpdates_with_frame levels_of updates o :
  depth (receiver (applyUpdates_with levels_of updates o)) = depth o ∧
  pricePrecision (receiver (applyUpdates_with levels_of updates o))
    = pricePrecision o ∧
  volumePrecision (receiver (applyUpdates_with levels_of updates o))
    = volumePrecision o ∧
  isAsk (receiver (applyUpdates_with levels_of updates o)) = isAsk o ∧
  ((∀ o', applyUpdates_with levels_of updates o ≠ Returns None o') →
   sorted (receiver (applyUpdates_with levels_of updates o)) = sorted o).
Proof.
  rewrite applyUpdates_with_run.
  pose proof (applyUpdates_loop_frame updates o) as Hloop.
  destruct (applyUpdates_loop updates o) as [[err|] o1|o1|o1];
    simpl in Hloop; destruct Hloop as (Hs & Hd & Hpp & Hvp & Hask);
    [done| |done..].
  destruct (mx o1); [done|]. unfold resort_with.
  destruct (_ && _); simpl; [|done].
  split_and!; [done..|]. intros Hnot.
  by destruct (Hnot (resorted_as (levels_of (m o1) (isAsk o1)) (m o1) o1)).
Qed.

(** X17.  A new side is empty, whatever its parameters: [Get] finds no
    price, [Best] returns the zero sentinel, [Range] calls no handler
    and [checksum] returns no bytes.  The empty batch completes on it
    exactly when its depth is 0, and panics otherwise. *)
Theorem new_side_is_empty depth pricePrecision volumePrecision isAsk :
  let o := newOrderBookSide depth pricePrecision volumePrecision isAsk in
  (∀ price, Get price o = Returns (New 0 0, false) o) ∧
  Best o = Returns (New 0 0, New 0 0) o ∧
  (∀ handler, Range handler o = Returns None o) ∧
  checksum o = Returns [] o ∧
  (depth = 0 → applyUpdates [] o = Returns None o) ∧
  (depth ≠ 0 → applyUpdates [] o = Panics (with_mx true o)).
Proof.
  intros o. split_and!; try done.
  - intros Hdepth.
    rewrite (applyUpdates_success [] o []); [|done|constructor|].
    + f_equal. apply (resorted_settled o).
      * symmetry. apply nil_length_inv.
        rewrite newOrderBookLevels_length. apply map_size_empty.
      * simpl. rewrite map_size_empty. lia.
    + simpl. rewrite map_size_empty. lia.
  - intros Hdepth.
    rewrite (applyUpdates_panic [] o []); [|done|constructor|].
    + change (apply_writes [] (m o)) with (m o). by rewrite with_m_id.
    + simpl. rewrite map_size_empty. lia.
Qed.

(** X18.  [applyUpdates] never changes the depth, the precisions or the
    side of its receiver, however it ends; and it leaves [sorted] as it
    was unless it returns [nil]: a batch that fails, panics or blocks
    does not touch the view. *)
Theorem applyUpdates_keeps_the_configuration updates o :
  depth (receiver (applyUpdates updates o)) = depth o ∧
  pricePrecision (receiver (applyUpdates updates o)) = pricePrecision o ∧
  volumePrecision (receiver (applyUpdates updates o)) = volumePrecision o ∧
  isAsk (receiver (applyUpdates updates o)) = isAsk o ∧
  ((∀ o', applyUpdates updates o ≠ Returns None o') →
   sorted (receiver (applyUpdates updates o)) = sorted o).
Proof. apply applyUpdates_frame. Qed.

(** X19.  The view of every side a program can hold, after batches that
    completed and batches that returned an error alike, and whatever the
    walks of the map: [sorted] is either empty or holds exactly [depth]
    levels, and of any two of its levels the earlier has the lower or
    equal price on the ask side, the higher or equal price on the bid
    side, and the two have different keys. *)
Theorem attainable_view_is_sorted o :
  attainable o →
  (sorted o = [] ∨ Z.of_nat (length (sorted o)) = depth o) ∧
  (∀ i j x y, (i < j)%nat →
     sorted o !! i = Some x → sorted o !! j = Some y →
     (if isAsk o then Cmp (Price x) (Price y) ≤ 0
      else 0 ≤ Cmp (Price x) (Price y)) ∧
     level_key (pricePrecision o) x ≠ level_key (pricePrecision o) y).
Proof.
  induction 1
    as [d pp vp asc|levels_of updates o o' r Harr Hatt [IHlen IHsorted] Hbatch].
  - split; [by left|]. by intros i j x y _ ?.
  - destruct r as [err|].
    + pose proof (applyUpdates_with_frame levels_of updates o) as Hframe.
      rewrite Hbatch in Hframe. simpl in Hframe.
      destruct Hframe as (Hd & Hpp & _ & Hask & Hs).
      rewrite Hs, Hd, Hpp, Hask by done. by split.
    + pose proof (attainable_keyed o Hatt) as Ho.
      destruct (applyUpdates_with_settled levels_of updates o o' Harr Ho Hbatch)
        as (Ho' & _ & Hsorted & _ & Hlen).
      split; [by right|].
      intros i j x y Hij Hx Hy.
      destruct (arranged_pair (pricePrecision o') (m o') (isAsk o') (sorted o')
                  i j x y) as [Hxy Hkey]; [done..|].
      split; [by apply best_first_Cmp|done].
Qed.

End sides.

(** * Runs on the reference implementation *)

#[local] Existing Instance Ref.externals.

(** Closed equations between runs are settled by evaluating both sides. *)
Ltac run :=
  match goal with
  | |- ?l = ?r =>
      let l' := eval vm_compute in l in
      let r' := eval vm_compute in r in
      unify l' r'; vm_cast_no_check (eq_refl l')
  end.

(** The first batch on the empty side: 3.0 falls beyond the depth. *)
Lemma asks_batch : applyUpdates batch asks = Returns None asks_filled.
Proof. run. Qed.

(** ** C1: the volume text is not what is stored *)

(** C1 fails on the code.  [applyUpdate] parses the volume it stores from
    the price text: after the update (1.5, 2) on the empty side, [Get] on
    1.5 finds the level and returns 1.5, which is not the volume 2. *)
Theorem Get_returns_price_not_volume :
  let o' := side 2 [("1.50000", level 15 (-1))] [] in
  UnmarshalText 5 "1.5" = Ok (big 15 (-1)) ∧
  UnmarshalText 0 "2" = Ok (big 2 0) ∧
  applyUpdate (item "1.5" "2") asks = Returns None o' ∧
  Get (big 15 (-1)) o' = Returns (big 15 (-1), true) o' ∧
  Cmp (big 15 (-1)) (big 2 0) ≠ 0.
Proof. split_and!; [run..|]. vm_compute. discriminate. Qed.

(** ** C2: a batch that leaves fewer than [depth] levels *)

(** C2 fails on the code.  One update on the empty side of depth 2 parses,
    and [applyUpdates] panics on [levels[o.depth:]]: the table holds the
    level, [sorted] is untouched and the write lock is still held. *)
Theorem applyUpdates_panics_below_depth :
  parses (pricePrecision asks) [item "1.0" "5"] ∧
  applyUpdates [item "1.0" "5"] asks =
    Panics (with_mx true (side 2 [("1.00000", level 10 (-1))] [])).
Proof.
  split; [|run]. repeat constructor. exists ("1.00000", Some (level 10 (-1))). run.
Qed.

(** ** C4: the price 0.00500 *)

(** At precision 5 the price 0.00500 prints as 0.00500 and adds "500" to
    the buffer, not "5". *)
Lemma checksum_0_00500_is_not_5 :
  UnmarshalText 5 "0.00500" = Ok (big 500 (-5)) ∧
  stringFixed (big 500 (-5)) 5 = "0.00500" ∧
  checksum_field 5 (big 500 (-5)) = "500" ∧
  checksum_field 5 (big 500 (-5)) ≠ "5".
Proof. split_and!; [run..|]. vm_compute. discriminate. Qed.

(** The bytes of the filled side, and the price 0.00500. *)
Lemma checksum_canonical_witness :
  checksum asks_filled =
    Returns (String.list_byte_of_string "100000100000000200000200000000")
      asks_filled ∧
  checksum_field 5 (big 500 (-5)) = "500".
Proof.
  destruct (checksum_canonical asks_filled eq_refl) as [Hbytes Hfield]. split.
  - rewrite Hbytes. run.
  - apply Hfield. run.
Defined.

(** ** C3, C5: depth and order *)

(** The two levels the first batch leaves, in order. *)
Lemma sorted_best_first_witness :
  Cmp (Price (level 10 (-1))) (Price (level 20 (-1))) ≤ 0.
Proof.
  exact (sorted_best_first batch asks asks_filled 0 (level 10 (-1)) (level 20 (-1))
           asks_batch eq_refl eq_refl).
Defined.

(** The first batch writes three levels on a side of depth 2: two are
    kept, and the third, 3.0, is gone from the table. *)
Lemma depth_bound_and_eviction_witness :
  Z.of_nat (length (sorted asks_filled)) ≤ depth asks_filled ∧
  (∀ key level, m asks_filled !! key = Some level → level ∈ sorted asks_filled) ∧
  (∀ level, level ∈ sorted asks_filled →
     m asks_filled !! level_key (pricePrecision asks_filled) level = Some level) ∧
  m asks_filled !! "3.00000" = None.
Proof.
  destruct (depth_bound_and_eviction batch asks asks_filled
              (keyed_new 2 5 8 true) asks_batch) as (Hdepth & Hin & Hsorted & Hout).
  split_and!; [done..|].
  apply (Hout [("3.00000", Some (level 30 (-1)));
               ("1.00000", Some (level 10 (-1)));
               ("2.00000", Some (level 20 (-1)))] "3.00000" (level 30 (-1))).
  - repeat constructor.
  - run.
  - intros Hin'. apply elem_of_cons in Hin' as [Heq|Hin']; [discriminate|].
    apply elem_of_cons in Hin' as [Heq|Hin']; [discriminate|].
    by apply elem_of_nil in Hin'.
Defined.

(** ** C6: a batch with an update that does not parse *)

(** The second update of three has the volume x, which is no number: the
    first update is written, the third is not looked at. *)
Lemma first_error_stops_batch_witness :
  ∃ o', applyUpdates ([item "1.0" "5"] ++ item "1.5" "x" :: [item "2.0" "5"]) asks
        = Returns (Some (Ref.NumError "x" "invalid syntax")) o' ∧
        m o' = apply_writes [("1.00000", Some (level 10 (-1)))] (m asks) ∧
        sorted o' = sorted asks.
Proof.
  apply (first_error_stops_batch [item "1.0" "5"] (item "1.5" "x")
           [item "2.0" "5"] asks [("1.00000", Some (level 10 (-1)))]).
  - reflexivity.
  - repeat constructor.
  - run.
Defined.

(** ** C7: a zero volume *)

(** The update (1.0, 0) on the filled side. *)
Lemma zero_volume_deletes_witness :
  ∃ o', applyUpdate (item "1.0" "0") asks_filled = Returns None o' ∧
        m o' = delete (stringFixed (big 10 (-1)) 5) (m asks_filled) ∧
        (m asks_filled !! stringFixed (big 10 (-1)) 5 = None → o' = asks_filled) ∧
        Get (big 10 (-1)) o' = Returns (New 0 0, false) o'.
Proof.
  apply (zero_volume_deletes (item "1.0" "0") asks_filled (S754_zero false)
           (big 10 (-1))); [reflexivity|run|reflexivity|run].
Defined.

(** ** C8: the same price twice in a batch *)

(** A side of depth 1.  The batch writes the price 2.0 twice and then the
    better price 1.0; [applyUpdates] completes and no level is left at
    2.0, in the table or in [sorted]: it fell beyond [depth]. *)
Lemma same_price_twice_then_evicted :
  let o' := side 1 [("1.00000", level 10 (-1))] [level 10 (-1)] in
  written 5 (item "2.0" "5") = Some ("2.00000", Some (level 20 (-1))) ∧
  written 5 (item "2.0" "6") = Some ("2.00000", Some (level 20 (-1))) ∧
  applyUpdates [item "2.0" "5"; item "2.0" "6"; item "1.0" "1"]
    (newOrderBookSide 1 5 8 true) = Returns None o' ∧
  m o' !! "2.00000" = None ∧
  sorted o' = [level 10 (-1)].
Proof. split_and!; run. Qed.

(** On the side of depth 2 the level written last, as 2.00, is the one
    that stays. *)
Lemma later_update_wins_witness :
  NoDup (level_key (pricePrecision asks) <$> sorted asks_twice) ∧
  (∀ level', level' ∈ sorted asks_twice →
     level_key (pricePrecision asks) level' = "2.00000" → level' = level 200 (-2)) ∧
  (m asks_twice !! "2.00000" = Some (level 200 (-2))
   ↔ level 200 (-2) ∈ sorted asks_twice) ∧
  (m asks_twice !! "2.00000" = Some (level 200 (-2))
   ∨ m asks_twice !! "2.00000" = None).
Proof.
  apply (later_update_wins [item "2.0" "5"] (item "2.0" "5") (item "2.00" "6")
           [item "1.0" "1"] "2.00000" (level 20 (-1)) (level 200 (-2))
           asks asks_twice).
  - apply keyed_new.
  - by left.
  - run.
  - run.
  - constructor; [|constructor]. intros w Hw.
    assert (written (pricePrecision asks) (item "1.0" "1")
            = Some ("1.00000", Some (level 10 (-1)))) as Hw' by run.
    rewrite Hw' in Hw. injection Hw as <-. discriminate.
  - run.
Defined.

(** ** C9: a batch applied twice *)

(** The first batch, twice, on the empty side; the second call walks the
    map backwards.  The prices 1.0, 2.0 and 3.0 do not tie. *)
Lemma applyUpdates_twice_witness :
  (applyUpdates_with newOrderBookLevels batch;; applyUpdates_with backwards batch)
    asks
    = applyUpdates_with newOrderBookLevels batch asks ∧
  sorted (receiver
            ((applyUpdates_with newOrderBookLevels batch;;
              applyUpdates_with backwards batch) asks))
    = sorted (receiver (applyUpdates_with newOrderBookLevels batch asks)) ∧
  (applyUpdates_with newOrderBookLevels batch;; applyUpdates_with backwards batch;;
   checksum) asks
    = (applyUpdates_with newOrderBookLevels batch;; checksum) asks.
Proof.
  apply (applyUpdates_twice newOrderBookLevels backwards newOrderBookLevels
           batch batch_writes asks).
  - apply newOrderBookLevels_arranging.
  - apply backwards_arranging.
  - apply newOrderBookLevels_arranging.
  - apply keyed_new.
  - repeat constructor.
  - apply tie_free_list_spec. run.
Defined.

(** C9 fails on a table with a tie.  The prices 0 and -0 compare equal
    and print differently, so the batch of the two puts two levels in
    the table, under the keys 0.00000 and -0.00000.  On a side of depth
    1 one of them is evicted, and which one depends on the walk of the
    map: when the second call walks the map the other way round, the
    level left in [sorted] after the batch was applied twice is not the
    level left after it was applied once, and the bytes of [checksum]
    differ with it. *)
Lemma twice_keeps_the_other_zero :
  let o := newOrderBookSide 1 5 8 true in
  let updates := [item "-0" "1"; item "0" "1"] in
  let once := applyUpdates_with newOrderBookLevels updates in
  let twice :=
    applyUpdates_with newOrderBookLevels updates;;
    applyUpdates_with backwards updates in
  arranging newOrderBookLevels ∧ arranging backwards ∧
  keyed o ∧ parses (pricePrecision o) updates ∧
  Cmp (big 0 0) minus_zero = 0 ∧
  stringFixed (big 0 0) 5 = "0.00000" ∧
  stringFixed minus_zero 5 = "-0.00000" ∧
  once o =
    Returns None
      (side 1 [("-0.00000", {| Price := minus_zero; Volume := minus_zero |})]
         [{| Price := minus_zero; Volume := minus_zero |}]) ∧
  twice o =
    Returns None (side 1 [("0.00000", level 0 0)] [level 0 0]) ∧
  returned ((once;; checksum) o) =
    Some (String.list_byte_of_string "-000000-000000000") ∧
  returned ((twice;; checksum) o) = Some [].
Proof.
  intros o updates once twice. split_and!.
  - apply newOrderBookLevels_arranging.
  - apply backwards_arranging.
  - apply keyed_new.
  - repeat constructor.
    + exists ("-0.00000", Some {| Price := minus_zero; Volume := minus_zero |}).
      run.
    + exists ("0.00000", Some (level 0 0)). run.
  - run.
  - run.
  - run.
  - run.
  - run.
  - run.
  - run.
Qed.

(** ** C10: a reader between two critical sections *)

(** The batch of the single update (2.0, 7) on the side of depth 1 that
    holds the price 1.0.  [Get] on 2.0 finds no level when it runs before
    the batch, and none when it runs after it, where the level has been
    evicted.  Scheduled between the update and the resort, it finds the
    lock free and finds a level. *)
Lemma Get_sees_a_level_that_never_was :
  let updates := [item "2.0" "7"] in
  let read := Get (big 20 (-1)) in
  applyUpdates [item "1.0" "5"] (newOrderBookSide 1 5 8 true)
    = Returns None asks_one ∧
  run_sections (sections updates) asks_one = applyUpdates updates asks_one ∧
  returned (read_after 0 updates read asks_one) = Some (New 0 0, false) ∧
  returned (read_after 1 updates read asks_one) = Some (big 20 (-1), true) ∧
  returned (read_after 2 updates read asks_one) = Some (New 0 0, false).
Proof. split_and!; run. Qed.

(** The same batch, with the reader after its one update. *)
Lemma reads_between_updates_witness :
  let updates := [item "2.0" "7"] in
  let o_k :=
    with_m (apply_writes (take 1 [("2.00000", Some (level 20 (-1)))])
              (m asks_one)) asks_one in
  run_sections (sections updates) asks_one = applyUpdates updates asks_one ∧
  run_sections (take 1 (sections updates)) asks_one = Returns None o_k ∧
  mx o_k = false ∧
  (∀ handler, ∃ a,
     Range handler asks_one = Returns a asks_one ∧
     read_after 1 updates (Range handler) asks_one = Returns a o_k) ∧
  (∃ a, Best asks_one = Returns a asks_one ∧
        read_after 1 updates Best asks_one = Returns a o_k) ∧
  (∃ a, checksum asks_one = Returns a asks_one ∧
        read_after 1 updates checksum asks_one = Returns a o_k) ∧
  (∀ price,
     read_after 1 updates (Get price) asks_one =
       Returns match m o_k !! stringFixed price (pricePrecision asks_one) with
               | None => (New 0 0, false)
               | Some level => (Volume level, true)
               end o_k).
Proof.
  apply (reads_between_updates [item "2.0" "7"]
           [("2.00000", Some (level 20 (-1)))] asks_one 1).
  - reflexivity.
  - repeat constructor.
  - simpl. lia.
Defined.

(** * Further runs on the reference implementation *)

Lemma batch_writes_of : writes_of (pricePrecision asks) batch batch_writes.
Proof. repeat constructor. Qed.

Lemma batch_parses : parses (pricePrecision asks) batch.
Proof. eapply writes_of_parses, batch_writes_of. Qed.

(** The first batch under the two walks: the prices do not tie, and the
    side it leaves is the same. *)
Lemma asks_batch_with :
  applyUpdates_with newOrderBookLevels batch asks = Returns None asks_filled.
Proof. exact asks_batch. Qed.

Lemma asks_batch_backwards :
  applyUpdates_with backwards batch asks = Returns None asks_filled.
Proof. run. Qed.

Lemma batch_tie_free : tie_free (apply_writes batch_writes (m asks)).
Proof. apply tie_free_list_spec. run. Qed.

Lemma asks_filled_tie_free : tie_free (m asks_filled).
Proof. apply tie_free_list_spec. run. Qed.

(** One update on the empty side of depth 2: the batch panics. *)
Lemma asks_short_batch :
  applyUpdates [item "1.0" "5"] asks =
    Panics (with_mx true (side 2 [("1.00000", level 10 (-1))] [])).
Proof. run. Qed.

(** ** X1: the first batch completes *)

Lemma applyUpdates_completes_iff_witness :
  ∃ ws, writes_of (pricePrecision asks) batch ws ∧
    let t := apply_writes ws (m asks) in
    (0 ≤ depth asks ≤ Z.of_nat (size t) ↔
       applyUpdates batch asks = Returns None (resorted t asks)) ∧
    (¬ (0 ≤ depth asks ≤ Z.of_nat (size t)) ↔
       applyUpdates batch asks = Panics (with_mx true (with_m t asks))).
Proof.
  apply (applyUpdates_completes_iff batch asks); [reflexivity|apply batch_parses].
Defined.

(** ** X2: the side the first batch leaves, the map walked backwards *)

Lemma batch_settles_witness :
  keyed asks_filled ∧ mx asks_filled = false ∧
  arranges (m asks_filled) (isAsk asks_filled) (sorted asks_filled) ∧
  Z.of_nat (size (m asks_filled)) = depth asks_filled ∧
  Z.of_nat (length (sorted asks_filled)) = depth asks_filled.
Proof.
  exact (batch_settles backwards batch asks asks_filled backwards_arranging
           (keyed_new 2 5 8 true) asks_batch_backwards).
Defined.

(** ** X3: after the panic *)

Lemma panic_keeps_the_lock_witness :
  let o' := with_mx true (side 2 [("1.00000", level 10 (-1))] []) in
  mx o' = true ∧
  sorted o' = sorted asks ∧
  ¬ (0 ≤ depth asks ≤ Z.of_nat (size (m o'))) ∧
  (∀ price, Get price o' = Blocks o') ∧
  (∀ handler, Range handler o' = Blocks o') ∧
  Best o' = Blocks o' ∧
  checksum o' = Blocks o' ∧
  (∀ updates', parses (pricePrecision o') updates' →
     applyUpdates updates' o' = Blocks o').
Proof.
  intros o'.
  exact (panic_keeps_the_lock [item "1.0" "5"] asks o' asks_short_batch).
Defined.

(** ** X4: the empty batch, and deleting the price 1.0, on the filled side *)

Lemma deleting_batch_panics_witness :
  (∃ o1, applyUpdates_with backwards [] asks_filled = Returns None o1 ∧
         m o1 = m asks_filled ∧ sorted o1 ≡ₚ sorted asks_filled ∧
         (tie_free (m asks_filled) → o1 = asks_filled)) ∧
  ∃ o'', applyUpdates_with backwards [item "1.0" "0"] asks_filled = Panics o'' ∧
         m o'' = apply_writes [("1.00000", None)] (m asks_filled) ∧
         m o'' !! "1.00000" = None.
Proof.
  destruct (deleting_batch_panics newOrderBookLevels batch asks asks_filled
              newOrderBookLevels_arranging (keyed_new 2 5 8 true)
              asks_batch_with) as [Hempty Hdeletes].
  split.
  - apply Hempty, backwards_arranging.
  - apply (Hdeletes backwards [item "1.0" "0"] [("1.00000", None)] "1.00000").
    + apply backwards_arranging.
    + repeat constructor.
    + repeat constructor.
    + by left.
    + exists (level 10 (-1)). run.
Defined.

(** ** X5, X6: the order of the filled side *)

Lemma sorted_orders_every_pair_witness :
  Cmp (Price (level 10 (-1))) (Price (level 20 (-1))) ≤ 0 ∧
  level_key 5 (level 10 (-1)) ≠ level_key 5 (level 20 (-1)) ∧
  Cmp (Price (level 10 (-1))) (Price (level 20 (-1))) = -1.
Proof.
  destruct (sorted_orders_every_pair backwards batch asks asks_filled 0 1
              (level 10 (-1)) (level 20 (-1)) backwards_arranging
              (keyed_new 2 5 8 true) asks_batch_backwards)
    as (Hle & Hkey & Hstrict); [lia|reflexivity|reflexivity|].
  split_and!; [exact Hle|exact Hkey|exact (Hstrict asks_filled_tie_free)].
Defined.

(** The price 3.0, written by the batch and evicted, is worse than 2.0. *)
Lemma kept_levels_beat_evicted_witness :
  Cmp (Price (level 20 (-1))) (Price (level 30 (-1))) ≤ 0 ∧
  Cmp (Price (level 20 (-1))) (Price (level 30 (-1))) = -1.
Proof.
  destruct (kept_levels_beat_evicted backwards batch asks asks_filled batch_writes
              (level 20 (-1)) "3.00000" (level 30 (-1)))
    as [Hle Hstrict].
  - apply backwards_arranging.
  - apply keyed_new.
  - exact asks_batch_backwards.
  - exact batch_writes_of.
  - right. left.
  - run.
  - intros Hin. apply elem_of_cons in Hin as [Heq|Hin]; [discriminate|].
    apply elem_of_cons in Hin as [Heq|Hin]; [discriminate|].
    by apply elem_of_nil in Hin.
  - split; [exact Hle|exact (Hstrict batch_tie_free)].
Defined.

(** ** X7: the best level of the filled side *)

Lemma Best_is_the_best_level_witness :
  ∃ best, Best asks_filled = Returns (Price best, Volume best) asks_filled ∧
    m asks_filled !! level_key (pricePrecision asks_filled) best = Some best ∧
    ∀ key level', apply_writes batch_writes (m asks) !! key = Some level' →
      Cmp (Price best) (Price level') ≤ 0.
Proof.
  destruct (Best_is_the_best_level backwards batch asks asks_filled batch_writes
              backwards_arranging (keyed_new 2 5 8 true) asks_batch_backwards
              batch_writes_of) as [_ Hbest].
  apply Hbest. reflexivity.
Defined.

(** ** X8: [Get] on 1.00 and on 3.0 *)

Lemma Get_answers_from_sorted_witness :
  Get (big 100 (-2)) asks_filled = Returns (big 10 (-1), true) asks_filled ∧
  Get (big 30 (-1)) asks_filled = Returns (New 0 0, false) asks_filled.
Proof.
  split.
  - destruct (Get_answers_from_sorted backwards batch asks asks_filled
                (big 100 (-2)) backwards_arranging (keyed_new 2 5 8 true)
                asks_batch_backwards) as [Hfound _].
    apply (Hfound (level 10 (-1))); [by left|run].
  - destruct (Get_answers_from_sorted backwards batch asks asks_filled
                (big 30 (-1)) backwards_arranging (keyed_new 2 5 8 true)
                asks_batch_backwards) as [_ Hnone].
    apply Hnone. intros level' Hin.
    apply elem_of_cons in Hin as [->|Hin]; [vm_compute; discriminate|].
    apply elem_of_cons in Hin as [->|Hin]; [vm_compute; discriminate|].
    by apply elem_of_nil in Hin.
Defined.

(** ** X9: the first batch, backwards, the map walked backwards *)

Lemma batch_order_is_irrelevant_witness :
  applyUpdates_with backwards
    [item "2.0" "7"; item "1.0" "6"; item "3.0" "5"] asks
    = applyUpdates_with newOrderBookLevels batch asks.
Proof.
  apply (batch_order_is_irrelevant newOrderBookLevels backwards
           batch (reverse batch) batch_writes asks).
  - apply newOrderBookLevels_arranging.
  - apply backwards_arranging.
  - exact batch_writes_of.
  - apply (bool_decide_unpack _). vm_compute. reflexivity.
  - symmetry. apply reverse_Permutation.
  - exact batch_tie_free.
Defined.

(** ** X11: one update on the empty side *)

Lemma asks_one_update :
  applyUpdate (item "1.5" "2") asks =
    Returns None (side 2 [("1.50000", level 15 (-1))] []).
Proof. run. Qed.

Lemma applyUpdate_writes_one_key_witness :
  let o' := side 2 [("1.50000", level 15 (-1))] [] in
  ∃ key binding,
    written (pricePrecision asks) (item "1.5" "2") = Some (key, binding) ∧
    m o' !! key = binding ∧
    (∀ key', key' ≠ key → m o' !! key' = m asks !! key') ∧
    (∀ price, stringFixed price (pricePrecision asks) ≠ key →
       returned (Get price o') = returned (Get price asks)).
Proof.
  intros o'.
  exact (applyUpdate_writes_one_key (item "1.5" "2") asks o' asks_one_update).
Defined.

(** ** X12: a handler that rejects prices above 1.5 *)

Definition up_to_1_5 (price volume : @Big Ref.externals) : option error :=
  if Cmp price (big 15 (-1)) =? 1 then Some "too high" else None.

Lemma Range_returns_the_first_error_witness :
  Range up_to_1_5 asks_filled = Returns (Some "too high") asks_filled ∧
  ∃ r, Range up_to_1_5 asks_filled = Returns r asks_filled ∧
    (r = None ↔
       ∀ level', level' ∈ sorted asks_filled →
         up_to_1_5 (Price level') (Volume level') = None) ∧
    (∀ err, r = Some err ↔
       ∃ before level' after,
         sorted asks_filled = before ++ level' :: after ∧
         (∀ level'', level'' ∈ before →
            up_to_1_5 (Price level'') (Volume level'') = None) ∧
         up_to_1_5 (Price level') (Volume level') = Some err).
Proof.
  split; [run|].
  apply (Range_returns_the_first_error up_to_1_5 asks_filled). reflexivity.
Defined.

(** ** X14: the table of the filled side, sorted by hand *)

Lemma newOrderBookLevels_is_the_sorted_table_witness :
  [level 10 (-1); level 20 (-1)] = newOrderBookLevels (m asks_filled) true.
Proof.
  apply (newOrderBookLevels_is_the_sorted_table (m asks_filled) true).
  - exact asks_filled_tie_free.
  - assert (map_values (m asks_filled) = [level 10 (-1); level 20 (-1)]) as ->
      by run.
    done.
  - intros [|[|i]] [|[|j]] x y Hij Hx Hy; try lia; try discriminate.
    injection Hx as <-. injection Hy as <-. run.
Defined.

(** With a tie there are two arrangements: the table that holds the
    prices 0 and -0 can be sorted either way, and the two walks do. *)
Lemma two_arrangements_of_the_zeros :
  let zeros :=
    m (side 2 [("0.00000", level 0 0);
               ("-0.00000", {| Price := minus_zero; Volume := minus_zero |})] []) in
  arranges zeros true (newOrderBookLevels zeros true) ∧
  arranges zeros true (backwards zeros true) ∧
  newOrderBookLevels zeros true
    = [{| Price := minus_zero; Volume := minus_zero |}; level 0 0] ∧
  backwards zeros true
    = [level 0 0; {| Price := minus_zero; Volume := minus_zero |}].
Proof.
  intros zeros. split_and!.
  - apply newOrderBookLevels_arranging.
  - apply backwards_arranging.
  - run.
  - run.
Qed.

(** ** X15: the digits of 0.00500 *)

Lemma checksum_field_of_0_00500 :
  checksum_field 5 (big 500 (-5)) = TrimLeft ("0" +:+ "00500") "0".
Proof.
  apply (proj2 (checksum_field_digits 5 (big 500 (-5))) "0" "00500");
    [run|reflexivity].
Qed.

(** ** X16: the filled side, rendered *)

(** [Big.String] is not called at positive precisions: any text will do. *)
Definition no_text (x : @Big Ref.externals) : string := "".

Lemma asks_filled_rendered :
  OrderBookSide_String no_text asks_filled =
    Returns
      (tab +:+ "1.00000 [ 1.00000000 ]" +:+ crlf +:+
       tab +:+ "2.00000 [ 2.00000000 ]" +:+ crlf)
      asks_filled.
Proof. run. Qed.

Lemma String_renders_sorted_witness :
  OrderBookSide_String no_text asks_filled =
    Returns
      (foldr (λ level' rest,
                rendered_line no_text (pricePrecision asks_filled)
                  (volumePrecision asks_filled) level' +:+ rest)
         "" (sorted asks_filled))
      asks_filled ∧
  (∀ level',
     rendered_line no_text (pricePrecision asks_filled)
       (volumePrecision asks_filled) level' =
       tab +:+ level_key (pricePrecision asks_filled) level' +:+ " [ " +:+
       stringFixed (Volume level') (volumePrecision asks_filled) +:+ " ]" +:+ crlf) ∧
  ∀ other, OrderBookSide_String other asks_filled
           = OrderBookSide_String no_text asks_filled.
Proof.
  destruct (String_renders_sorted no_text asks_filled eq_refl) as [Hrun Hpositive].
  split; [exact Hrun|]. apply Hpositive; reflexivity.
Defined.

(** ** X19: a side left by a batch that failed *)

(** The filled side, then a batch whose second update has no number for
    a volume: the price 0.5 is written, and [sorted] is as it was. *)
Definition asks_failed : @OrderBookSide Ref.externals :=
  side 2 [("0.50000", level 5 (-1)); ("1.00000", level 10 (-1));
          ("2.00000", level 20 (-1))]
    [level 10 (-1); level 20 (-1)].

Lemma asks_filled_fails :
  applyUpdates_with backwards [item "0.5" "1"; item "4.0" "x"] asks_filled
    = Returns (Some (Ref.NumError "x" "invalid syntax")) asks_failed.
Proof. run. Qed.

Lemma asks_failed_attainable : attainable asks_failed.
Proof.
  eapply attainable_batch; [apply backwards_arranging| |exact asks_filled_fails].
  eapply attainable_batch;
    [apply newOrderBookLevels_arranging|apply (attainable_new 2 5 8 true)
    |exact asks_batch_with].
Qed.

Lemma attainable_view_is_sorted_witness :
  (sorted asks_failed = [] ∨
   Z.of_nat (length (sorted asks_failed)) = depth asks_failed) ∧
  (∀ i j x y, (i < j)%nat →
     sorted asks_failed !! i = Some x → sorted asks_failed !! j = Some y →
     (if isAsk asks_failed then Cmp (Price x) (Price y) ≤ 0
      else 0 ≤ Cmp (Price x) (Price y)) ∧
     level_key (pricePrecision asks_failed) x
       ≠ level_key (pricePrecision asks_failed) y).
Proof. exact (attainable_view_is_sorted asks_failed asks_failed_attainable). Defined.
